(** * Super Simple Stock Market ([sssm.py]): a shallow embedding and its properties

    Modelling conventions.

    - Python numbers ([int], [float]) are taken in exact arithmetic: integers
      are [Z], every other number is a rational [Q].  True division [/] is
      the one fallible arithmetic operation; it raises [ZeroDivisionError]
      on a zero divisor whatever the operand types.  Rounding, overflow and
      the special float values are outside the model.
    - [str] values are ASCII strings; [str.upper] maps the letters [a]..[z]
      to [A]..[Z] and leaves every other character alone.
    - A [datetime] is a number of microseconds on an unbounded axis ([Z]);
      [timedelta(seconds=d)] is [d * 10^6] microseconds.
    - The system clock is part of the state: every call of
      [datetime.utcnow()] consumes the next reading of the clock.
    - Exceptions are values of [exn]; a computation returns a [result]. *)

From Stdlib Require Import ZArith QArith List Bool Ascii String Lia Lra.
From Stdlib Require Import Sorted Permutation Reals Qreals OrderedTypeEx.
Import ListNotations.

Set Implicit Arguments.

(* ------------------------------------------------------------------ *)
(** ** Exceptions and results *)

Inductive exn : Type :=
| ZeroDivisionError
| NotImplementedError
| TypeError.

Inductive result (A : Type) : Type :=
| Ok (a : A)
| Raise (e : exn).

Arguments Ok {A} a.
Arguments Raise {A} e.

Definition rbind {A B : Type} (r : result A) (k : A -> result B) : result B :=
  match r with
  | Ok a => k a
  | Raise e => Raise e
  end.

(** Python's [a / b]. *)
Definition py_div (a b : Q) : result Q :=
  if Qeq_bool b 0 then Raise ZeroDivisionError else Ok (a / b)%Q.

(* ------------------------------------------------------------------ *)
(** ** [str.upper] on ASCII strings *)

Definition is_lower (c : ascii) : bool :=
  ((97 <=? N_of_ascii c) && (N_of_ascii c <=? 122))%N.

Definition upper_ascii (c : ascii) : ascii :=
  if is_lower c then ascii_of_N (N_of_ascii c - 32) else c.

Fixpoint upper (s : string) : string :=
  match s with
  | EmptyString => EmptyString
  | String c s' => String (upper_ascii c) (upper s')
  end.

(** A string is uppercase when it holds no lowercase letter, that is when
    [s.upper() == s]. *)
Fixpoint is_upper (s : string) : bool :=
  match s with
  | EmptyString => true
  | String c s' => negb (is_lower c) && is_upper s'
  end.

(* ------------------------------------------------------------------ *)
(** ** Stocks *)

(** The class of a stock object: the base class [Stock] can be
    instantiated, and its two subclasses override [dividend_yield]. *)
Inductive StockClass : Type :=
| BaseStock
| CommonStock
| PreferredStock.

Record Stock : Type := mkStock {
  class_of : StockClass;
  symbol : string;
  last_dividend : Z;
  par_value : Z;
  fixed_dividend : option Q
}.

(** [Stock.__init__], inherited unchanged by both subclasses. *)
Definition Stock_init (cls : StockClass) (sym : string) (last_div par : Z)
    (fixed : option Q) : Stock :=
  {| class_of := cls;
     symbol := upper sym;
     last_dividend := last_div;
     par_value := par;
     fixed_dividend := fixed |}.

(** [dividend_yield], dispatched on the class of the receiver. *)
Definition dividend_yield (self : Stock) (price : Q) : result Q :=
  match class_of self with
  | BaseStock => Raise NotImplementedError
  | CommonStock => py_div (inject_Z (last_dividend self)) price
  | PreferredStock =>
      match fixed_dividend self with
      | Some f => py_div (f * inject_Z (par_value self))%Q price
      | None => Ok 0%Q
      end
  end.

(** [Stock.pe_ratio]: [1 / self.dividend_yield(price)]. *)
Definition pe_ratio (self : Stock) (price : Q) : result Q :=
  rbind (dividend_yield self price) (fun y => py_div 1 y).

(* ------------------------------------------------------------------ *)
(** ** Trades *)

Inductive TradeType : Type :=
| buy
| sell.

(** The enumeration values [buy = 1], [sell = -1]. *)
Definition TradeType_value (a : TradeType) : Z :=
  match a with
  | buy => 1
  | sell => -1
  end.

Record Trade : Type := mkTrade {
  stock : Stock;
  quantity : Z;
  action : TradeType;
  price : Q;
  timestamp : Z
}.

(** Python's [sum] over a sequence: starts from [0] and adds the items from
    left to right. *)
Definition py_sum (xs : list Q) : Q :=
  fold_left Qplus xs 0%Q.

(** [Trade.volume_weighted_price]. *)
Definition volume_weighted_price (trades : list Trade) : result Q :=
  py_div
    (py_sum (map (fun trade => (price trade * inject_Z (quantity trade))%Q) trades))
    (py_sum (map (fun trade => inject_Z (quantity trade)) trades)).

(* ------------------------------------------------------------------ *)
(** ** The clock, the exchange and the state of the program *)

(** The system clock: [readings k] is what the [k]-th call of
    [datetime.utcnow()] returns, [reads] counts the calls made so far. *)
Record Clock : Type := mkClock {
  readings : nat -> Z;
  reads : nat
}.

(** An exchange object: its [trades] deque, oldest entry first. *)
Record Exchange : Type := mkExchange {
  trades : list Trade
}.

Record World : Type := mkWorld {
  exchange : Exchange;
  clock : Clock
}.

(** Computations that read and write the state and may raise. *)
Definition M (A : Type) : Type := World -> result A * World.

Definition ret {A : Type} (a : A) : M A :=
  fun w => (Ok a, w).

Definition bind {A B : Type} (m : M A) (k : A -> M B) : M B :=
  fun w =>
    match m w with
    | (Ok a, w') => k a w'
    | (Raise e, w') => (Raise e, w')
    end.

Notation "x <- m ;; k" := (bind m (fun x => k))
  (at level 61, m at next level, right associativity).

Definition lift {A : Type} (r : result A) : M A :=
  fun w => (r, w).

(** [datetime.utcnow()]. *)
Definition utcnow : M Z :=
  fun w =>
    let c := clock w in
    (Ok (readings c (reads c)),
     mkWorld (exchange w) (mkClock (readings c) (S (reads c)))).

(** [self.trades], read. *)
Definition get_trades : M (list Trade) :=
  fun w => (Ok (trades (exchange w)), w).

(** [self.trades.append(trade)]. *)
Definition append_trade (trade : Trade) : M unit :=
  fun w =>
    (Ok tt, mkWorld (mkExchange (trades (exchange w) ++ [trade])) (clock w)).

(** [timedelta(seconds=d)], in microseconds. *)
Definition seconds (d : Z) : Z := (d * 1000000)%Z.

(** A list comprehension [[x for x in l if cond(x)]] whose condition is a
    computation: the items are visited from left to right. *)
Fixpoint filterM {A : Type} (cond : A -> M bool) (l : list A) : M (list A) :=
  match l with
  | [] => ret []
  | x :: l' =>
      b <- cond x ;;
      rest <- filterM cond l' ;;
      ret (if b then x :: rest else rest)
  end.

(** A list comprehension [[f(x) for x in l]] whose body may raise. *)
Fixpoint mapR {A B : Type} (f : A -> result B) (l : list A) : result (list B) :=
  match l with
  | [] => Ok []
  | x :: l' =>
      rbind (f x) (fun y => rbind (mapR f l') (fun ys => Ok (y :: ys)))
  end.

(** [Trade.__init__]: the timestamp is the clock reading at construction. *)
Definition Trade_init (s : Stock) (qty : Z) (a : TradeType) (p : Q) : M Trade :=
  now <- utcnow ;;
  ret (mkTrade s qty a p now).

(** [Exchange.__init__]. *)
Definition Exchange_init : Exchange := mkExchange [].

(** [Exchange.record_trade]. *)
Definition record_trade (trade : Trade) : M unit :=
  append_trade trade.

(** [Exchange.price_by_stock].  The conjunction short-circuits: the clock is
    read only for a trade whose symbol matches. *)
Definition price_by_stock (sym : string) (duration : Z) : M (option Q) :=
  all <- get_trades ;;
  sel <- filterM
           (fun trade =>
              if String.eqb (symbol (stock trade)) (upper sym)
              then now <- utcnow ;;
                   ret (now - seconds duration <=? timestamp trade)%Z
              else ret false)
           all ;;
  match sel with
  | [] => ret None
  | _ :: _ => p <- lift (volume_weighted_price sel) ;; ret (Some p)
  end.

(* ------------------------------------------------------------------ *)
(** ** [sorted], [groupby], [reduce] and [**] *)

Section SortGroup.

Variable A : Type.
Variable key : A -> string.

(** [sorted(l, key=key)] is stable; insertion from the right, each item
    placed before the first item whose key is not smaller, is the stable
    sort. *)
Fixpoint insert_sorted (x : A) (l : list A) : list A :=
  match l with
  | [] => [x]
  | y :: l' =>
      if String.leb (key x) (key y) then x :: y :: l'
      else y :: insert_sorted x l'
  end.

Fixpoint sorted (l : list A) : list A :=
  match l with
  | [] => []
  | x :: l' => insert_sorted x (sorted l')
  end.

(** [itertools.groupby(l, key=key)]: the maximal runs of consecutive items
    with equal keys, each with its key. *)
Fixpoint groupby (l : list A) : list (string * list A) :=
  match l with
  | [] => []
  | x :: l' =>
      match groupby l' with
      | (k, g) :: rest =>
          if String.eqb (key x) k then (k, x :: g) :: rest
          else (key x, [x]) :: (k, g) :: rest
      | [] => [(key x, [x])]
      end
  end.

(** The items of [l] whose key is [k], in the order of [l]. *)
Definition with_key (k : string) (l : list A) : list A :=
  filter (fun x => String.eqb (key x) k) l.

Definition key_le (x y : A) : Prop := String.leb (key x) (key y) = true.

(** The keys of the groups, in order. *)
Definition group_keys (l : list A) : list string :=
  map fst (groupby l).

End SortGroup.

Arguments with_key : simpl never.

(** [functools.reduce(mul, xs)] without an initial value. *)
Definition reduce_mul (xs : list Q) : result Q :=
  match xs with
  | [] => Raise TypeError
  | x :: xs' => Ok (fold_left Qmult xs' x)
  end.

(** What [**] returns: a float, or a complex number. *)
Inductive pynum : Type :=
| PyFloat (r : R)
| PyComplex (re im : R).

(** [x ** e] for a float [x]: a positive base gives the real power; a zero
    base gives 0, 1 or [ZeroDivisionError] by the sign of [e]; a negative
    base gives the real power when [e] is a whole number and the principal
    complex power (modulus [|x|^e], argument [pi * e]) otherwise. *)
Definition float_pow (x e : Q) : result pynum :=
  match (x ?= 0)%Q with
  | Gt => Ok (PyFloat (Rpower (Q2R x) (Q2R e)))
  | Eq =>
      match (e ?= 0)%Q with
      | Gt => Ok (PyFloat 0%R)
      | Eq => Ok (PyFloat 1%R)
      | Lt => Raise ZeroDivisionError
      end
  | Lt =>
      if (Zpos (Qden (Qred e)) =? 1)%Z
      then Ok (PyFloat (powerRZ (Q2R x) (Qnum (Qred e))))
      else Ok (PyComplex
                 (Rpower (Q2R (- x)) (Q2R e) * cos (PI * Q2R e))
                 (Rpower (Q2R (- x)) (Q2R e) * sin (PI * Q2R e)))
  end.

(** [Exchange.all_share_index].  [duration] is [None] or an integer; the
    nested function [include] tests its truth value. *)
Definition include (duration : option Z) (trade : Trade) : M bool :=
  match duration with
  | Some d =>
      if (d =? 0)%Z then ret true
      else now <- utcnow ;;
           ret (now - seconds d <=? timestamp trade)%Z
  | None => ret true
  end.

Definition stock_symbol (trade : Trade) : string := symbol (stock trade).

Definition all_share_index (duration : option Z) : M (option pynum) :=
  all <- get_trades ;;
  sel <- filterM (include duration) all ;;
  match sorted stock_symbol sel with
  | [] => ret None
  | (_ :: _) as ts =>
      let groups := groupby stock_symbol ts in
      prices <- lift (mapR (fun g => volume_weighted_price (snd g)) groups) ;;
      product <- lift (reduce_mul prices) ;;
      e <- lift (py_div 1 (inject_Z (Z.of_nat (List.length prices)))) ;;
      v <- lift (float_pow product e) ;;
      ret (Some v)
  end.

(* ------------------------------------------------------------------ *)
(** ** The operations of the program on an exchange *)

Inductive Op : Type :=
| OpRecord (trade : Trade)
| OpPrice (sym : string) (duration : Z)
| OpIndex (duration : option Z).

(** The state after one operation; the returned value, or the exception,
    is dropped. *)
Definition run_op (o : Op) (w : World) : World :=
  match o with
  | OpRecord trade => snd (record_trade trade w)
  | OpPrice sym d => snd (price_by_stock sym d w)
  | OpIndex d => snd (all_share_index d w)
  end.

Definition run_ops (ops : list Op) (w : World) : World :=
  fold_left (fun w' o => run_op o w') ops w.

(** The clock shows the same instant at every reading. *)
Definition frozen (c : Clock) (now : Z) : Prop :=
  forall k, readings c k = now.

(* ------------------------------------------------------------------ *)
(** ** Sums as the specification writes them *)

Fixpoint Qsum (xs : list Q) : Q :=
  match xs with
  | [] => 0%Q
  | x :: xs' => (x + Qsum xs')%Q
  end.

(** Σ(price_i · quantity_i) *)
Definition total_value (ts : list Trade) : Q :=
  Qsum (map (fun t => (price t * inject_Z (quantity t))%Q) ts).

(** Σ(quantity_i), a sum of integers. *)
Fixpoint total_quantity (ts : list Trade) : Z :=
  match ts with
  | [] => 0%Z
  | t :: ts' => (quantity t + total_quantity ts')%Z
  end.

(* ------------------------------------------------------------------ *)
(** ** Notions the properties are stated with *)

(** [m] never changes the exchange, whether it returns or raises. *)
Definition read_only {A : Type} (m : M A) : Prop :=
  forall w, exchange (snd (m w)) = exchange w.

(** Started with the clock frozen at [now], [m] ends with outcome [r] and
    leaves the clock frozen at [now]. *)
Definition yields {A : Type} (now : Z) (m : M A) (r : result A) : Prop :=
  forall w, frozen (clock w) now ->
            fst (m w) = r /\ frozen (clock (snd (m w))) now.

(** The window test [timestamp >= now - timedelta(seconds=duration)]. *)
Definition in_window (now duration : Z) (t : Trade) : bool :=
  (now - seconds duration <=? timestamp t)%Z.

(** The filter of [price_by_stock] when every clock reading is [now]. *)
Definition matches (sym : string) (duration now : Z) (t : Trade) : bool :=
  String.eqb (stock_symbol t) (upper sym) && in_window now duration t.

(** Whether [all_share_index] takes a trade in when every clock reading is
    [now]. *)
Definition included (duration : option Z) (now : Z) (t : Trade) : bool :=
  match duration with
  | Some d => if (d =? 0)%Z then true else in_window now d t
  | None => true
  end.

(** The part of [all_share_index] that follows the selection. *)
Definition index_of (sel : list Trade) : result (option pynum) :=
  match sorted stock_symbol sel with
  | [] => Ok None
  | (_ :: _) as ts =>
      rbind (mapR (fun g => volume_weighted_price (snd g))
               (groupby stock_symbol ts))
        (fun prices =>
           rbind (reduce_mul prices)
             (fun product =>
                rbind (py_div 1 (inject_Z (Z.of_nat (List.length prices))))
                  (fun e =>
                     rbind (float_pow product e) (fun v => Ok (Some v)))))
  end.

(** The trades of [sel] on the stock symbol [k], in ledger order. *)
Definition symbol_group (k : string) (sel : list Trade) : list Trade :=
  with_key stock_symbol k sel.

(** Π x_i as the specification writes it. *)
Fixpoint Qprod (xs : list Q) : Q :=
  match xs with
  | [] => 1%Q
  | x :: xs' => (x * Qprod xs')%Q
  end.

(** The geometric mean (Π x_i)^(1/n) of [n] numbers, by the power operator
    of the program. *)
Definition geometric_mean (xs : list Q) : result pynum :=
  float_pow (Qprod xs) (1 / inject_Z (Z.of_nat (List.length xs)))%Q.

(* ------------------------------------------------------------------ *)
(** ** Concrete scenarios *)

Definition TEA : Stock := Stock_init CommonStock "TEA" 0 100 None.
Definition POP : Stock := Stock_init CommonStock "POP" 8 100 None.
Definition GIN : Stock := Stock_init PreferredStock "GIN" 8 100 (Some (2 # 100)).

(** A clock that shows one instant, ten seconds after the origin. *)
Definition acceptance_now : Z := 10000000.

Definition acceptance_start : World :=
  mkWorld Exchange_init (mkClock (fun _ => acceptance_now) 0).

(** The six trades of the integration test, built and recorded in order. *)
Definition acceptance_program : M unit :=
  t1 <- Trade_init TEA 42 buy 32 ;; _ <- record_trade t1 ;;
  t2 <- Trade_init POP 420 buy 8 ;; _ <- record_trade t2 ;;
  t3 <- Trade_init POP 420 buy 16 ;; _ <- record_trade t3 ;;
  t4 <- Trade_init GIN 1000 buy 512 ;; _ <- record_trade t4 ;;
  t5 <- Trade_init GIN 1000 buy 256 ;; _ <- record_trade t5 ;;
  t6 <- Trade_init GIN 2000 buy 128 ;; record_trade t6.

Definition acceptance_world : World := snd (acceptance_program acceptance_start).

Definition acceptance_trades : list Trade :=
  [ mkTrade TEA 42 buy 32 acceptance_now;
    mkTrade POP 420 buy 8 acceptance_now;
    mkTrade POP 420 buy 16 acceptance_now;
    mkTrade GIN 1000 buy 512 acceptance_now;
    mkTrade GIN 1000 buy 256 acceptance_now;
    mkTrade GIN 2000 buy 128 acceptance_now ].

(** Two trades on one stock with the same timestamp, and a clock that
    advances by one microsecond from one reading to the next. *)
Definition moving_world : World :=
  mkWorld (mkExchange [mkTrade POP 1 buy 8 0; mkTrade POP 1 buy 16 0])
          (mkClock (fun k => (10000000 + Z.of_nat k)%Z) 0).

(** A stock object whose [symbol] attribute holds lowercase letters: not a
    product of the constructor, but what a stand-in object or an attribute
    assignment gives. *)
Definition tea_lower : Stock := mkStock CommonStock "tea" 0 100 None.

Definition case_trades : list Trade :=
  [ mkTrade TEA 10 buy 40 0; mkTrade tea_lower 10 buy 90 0 ].

(* ------------------------------------------------------------------ *)
(** ** More of the program: [__repr__] of stocks and placing a trade *)

(** [Stock.__repr__] and its two overrides: the class name and the symbol
    between backquotes. *)
Definition Stock_repr (self : Stock) : string :=
  match class_of self with
  | BaseStock => "<Stock object `" ++ symbol self ++ "`>"
  | CommonStock => "<CommonStock object `" ++ symbol self ++ "`>"
  | PreferredStock => "<PreferredStock object `" ++ symbol self ++ "`>"
  end.

(** [exchange.record_trade(Trade(stock, quantity, action, price))]: a trade
    is built, which stamps it, and recorded at once; this is how the callers
    of the module place a trade. *)
Definition place_trade (s : Stock) (qty : Z) (a : TradeType) (p : Q) : M unit :=
  t <- Trade_init s qty a p ;;
  record_trade t.

(** Calls a client makes on an exchange when every trade is built at the
    moment it is recorded. *)
Inductive Call : Type :=
| CallPlace (s : Stock) (qty : Z) (a : TradeType) (p : Q)
| CallPrice (sym : string) (duration : Z)
| CallIndex (duration : option Z).

Definition run_call (c : Call) (w : World) : World :=
  match c with
  | CallPlace s qty a p => snd (place_trade s qty a p w)
  | CallPrice sym d => snd (price_by_stock sym d w)
  | CallIndex d => snd (all_share_index d w)
  end.

Definition run_calls (cs : list Call) (w : World) : World :=
  fold_left (fun w' c => run_call c w') cs w.

(** The trades [price_by_stock] selects and the number of clock readings
    made, when the readings are [rd] and [k] of them are already used: the
    clock is read for a trade exactly when its symbol is [sym_up]. *)
Fixpoint price_selection (rd : nat -> Z) (k : nat) (sym_up : string) (d : Z)
    (l : list Trade) : list Trade * nat :=
  match l with
  | [] => ([], k)
  | t :: l' =>
      if String.eqb (symbol (stock t)) sym_up
      then let r := price_selection rd (S k) sym_up d l' in
           (if (rd k - seconds d <=? timestamp t)%Z then t :: fst r else fst r,
            snd r)
      else price_selection rd k sym_up d l'
  end.

(** The same for [all_share_index]: with a duration that counts as true the
    clock is read once for every trade. *)
Fixpoint index_selection (rd : nat -> Z) (k : nat) (d : Z)
    (l : list Trade) : list Trade * nat :=
  match l with
  | [] => ([], k)
  | t :: l' =>
      let r := index_selection rd (S k) d l' in
      (if (rd k - seconds d <=? timestamp t)%Z then t :: fst r else fst r,
       snd r)
  end.

(** What [all_share_index] selects for each kind of duration: with [None]
    or zero the whole ledger, without a look at the clock. *)
Definition index_selected (rd : nat -> Z) (k : nat) (duration : option Z)
    (l : list Trade) : list Trade * nat :=
  match duration with
  | Some d => if (d =? 0)%Z then (l, k) else index_selection rd k d l
  | None => (l, k)
  end.

(** The trades of [l] that pass the window test when each is tested
    against a reading of its own: the first against the reading [rd k], the
    next against [rd (k + 1)], and so on. *)
Definition window_from (rd : nat -> Z) (k : nat) (d : Z) (l : list Trade)
    : list Trade :=
  map snd
    (filter (fun jt => (rd (fst jt) - seconds d <=? timestamp (snd jt))%Z)
       (combine (seq k (List.length l)) l)).

(** What [all_share_index] takes in: the whole ledger when the duration is
    [None] or zero, else the trades inside the window of their own
    reading. *)
Definition index_window (rd : nat -> Z) (k : nat) (duration : option Z)
    (l : list Trade) : list Trade :=
  match duration with
  | Some d => if (d =? 0)%Z then l else window_from rd k d l
  | None => l
  end.

(** A trade with its direction replaced. *)
Definition set_action (f : TradeType -> TradeType) (t : Trade) : Trade :=
  mkTrade (stock t) (quantity t) (f (action t)) (price t) (timestamp t).

(** The list is in timestamp order and no entry is later than [bound]. *)
Fixpoint stamped_in_order (bound : Z) (l : list Trade) : Prop :=
  match l with
  | [] => True
  | t :: l' =>
      (timestamp t <= bound)%Z /\
      Forall (fun t' => (timestamp t <= timestamp t')%Z) l' /\
      stamped_in_order bound l'
  end.

(** The ledger is in timestamp order and nothing in it is later than the
    next reading of the clock. *)
Definition in_step (w : World) : Prop :=
  stamped_in_order (readings (clock w) (reads (clock w)))
                   (trades (exchange w)).

(** The readings of the clock never go back. *)
Definition monotone (c : Clock) : Prop :=
  forall i j, (i <= j)%nat -> (readings c i <= readings c j)%Z.

(** The two trades whose stored symbols differ in case only, on an
    exchange. *)
Definition case_world : World :=
  mkWorld (mkExchange case_trades) (mkClock (fun _ => 0%Z) 0).

(* ------------------------------------------------------------------ *)
(** * Properties *)

(** ** Division *)

Lemma py_div_ok (a b : Q) : ~ (b == 0)%Q -> py_div a b = Ok (a / b)%Q.
Proof.
  intros Hb. unfold py_div.
  destruct (Qeq_bool b 0) eqn:E; [|reflexivity].
  apply Qeq_bool_iff in E. contradiction.
Qed.

Lemma py_div_zero (a b : Q) : (b == 0)%Q -> py_div a b = Raise ZeroDivisionError.
Proof.
  intros Hb. unfold py_div.
  apply Qeq_bool_iff in Hb. now rewrite Hb.
Qed.

Lemma py_div_cases (a b : Q) :
  ((b == 0)%Q /\ py_div a b = Raise ZeroDivisionError) \/
  (~ (b == 0)%Q /\ py_div a b = Ok (a / b)%Q).
Proof.
  destruct (Qeq_dec b 0) as [E|E].
  - left. split; [assumption | now apply py_div_zero].
  - right. split; [assumption | now apply py_div_ok].
Qed.

(** ** Stocks *)

Lemma Qpos_nonzero (p : Q) : (0 < p)%Q -> ~ (p == 0)%Q.
Proof. intros Hp E. rewrite E in Hp. now apply Qlt_irrefl in Hp. Qed.

(** C6. For every CommonStock with last dividend [d] and every positive
    price [p], [dividend_yield(p)] returns [d / p]. *)
Theorem common_dividend_yield (s : Stock) (p : Q) :
  class_of s = CommonStock ->
  (0 < p)%Q ->
  dividend_yield s p = Ok (inject_Z (last_dividend s) / p)%Q.
Proof.
  intros Hc Hp. unfold dividend_yield. rewrite Hc.
  apply py_div_ok, Qpos_nonzero, Hp.
Qed.

Lemma common_dividend_yield_witness :
  dividend_yield (Stock_init CommonStock "POP" 8 100 None) 100 = Ok (8 / 100)%Q.
Proof.
  apply (common_dividend_yield (Stock_init CommonStock "POP" 8 100 None)
           (p := 100%Q)); reflexivity.
Defined.

(** C7. For every PreferredStock and every positive price [p],
    [dividend_yield(p)] returns [fixed_dividend * par_value / p] when the
    fixed dividend is set, and [0] when it is [None]. *)
Theorem preferred_dividend_yield (s : Stock) (p : Q) :
  class_of s = PreferredStock ->
  (0 < p)%Q ->
  dividend_yield s p =
    match fixed_dividend s with
    | Some f => Ok (f * inject_Z (par_value s) / p)%Q
    | None => Ok 0%Q
    end.
Proof.
  intros Hc Hp. unfold dividend_yield. rewrite Hc.
  destruct (fixed_dividend s) as [f|]; [|reflexivity].
  apply py_div_ok, Qpos_nonzero, Hp.
Qed.

Lemma preferred_dividend_yield_witness :
  dividend_yield (Stock_init PreferredStock "GIN" 8 100 (Some (2 # 100))) 100
    = Ok ((2 # 100) * 100 / 100)%Q
  /\ dividend_yield (Stock_init PreferredStock "GIN" 8 100 None) 100 = Ok 0%Q.
Proof.
  split.
  - apply (preferred_dividend_yield
             (Stock_init PreferredStock "GIN" 8 100 (Some (2 # 100)))
             (p := 100%Q)); reflexivity.
  - apply (preferred_dividend_yield
             (Stock_init PreferredStock "GIN" 8 100 None)
             (p := 100%Q)); reflexivity.
Defined.

(** Both variants have a yield at every nonzero price; the base class has
    none, and a zero price makes the yield itself divide by zero. *)
Lemma dividend_yield_defined (s : Stock) (p : Q) :
  class_of s <> BaseStock -> ~ (p == 0)%Q ->
  exists y, dividend_yield s p = Ok y.
Proof.
  intros Hc Hp. unfold dividend_yield.
  destruct (class_of s); [contradiction| |].
  - eexists. now apply py_div_ok.
  - destruct (fixed_dividend s); eexists; [now apply py_div_ok | reflexivity].
Qed.

(** [pe_ratio] lets a failure of [dividend_yield] through unchanged. *)
Lemma pe_ratio_propagates (s : Stock) (p : Q) (e : exn) :
  dividend_yield s p = Raise e -> pe_ratio s p = Raise e.
Proof. intros H. unfold pe_ratio. now rewrite H. Qed.

(** C5, as the code has it. Where [dividend_yield] returns a yield [y]:
    [pe_ratio] returns [1 / y] when [y] is not zero, and fails with
    [ZeroDivisionError] exactly when [y] is zero.  Where [dividend_yield]
    itself raises, as it does at price zero when it divides by the price,
    [pe_ratio] raises the same exception. *)
Theorem pe_ratio_outcome (s : Stock) (p : Q) :
  match dividend_yield s p with
  | Ok y =>
      (~ (y == 0)%Q -> pe_ratio s p = Ok (1 / y)%Q) /\
      (pe_ratio s p = Raise ZeroDivisionError <-> (y == 0)%Q)
  | Raise e => pe_ratio s p = Raise e
  end.
Proof.
  unfold pe_ratio. destruct (dividend_yield s p) as [y|e]; [|reflexivity].
  simpl. destruct (py_div_cases 1 y) as [[Hz E]|[Hz E]]; rewrite E.
  - split; [intros Hn; contradiction | tauto].
  - split; [reflexivity | split; [discriminate | contradiction]].
Qed.

(** At price zero a common stock with a dividend of 8 has no yield, zero
    or other, and [pe_ratio] fails with [ZeroDivisionError] all the same. *)
Lemma pe_ratio_zero_price :
  pe_ratio (Stock_init CommonStock "POP" 8 100 None) 0
    = Raise ZeroDivisionError /\
  ~ (exists y,
       dividend_yield (Stock_init CommonStock "POP" 8 100 None) 0 = Ok y /\
       (y == 0)%Q).
Proof.
  split; [reflexivity|]. intros [y [H _]]. discriminate H.
Qed.

(** ** Uppercase symbols *)

Lemma upper_ascii_not_lower (c : ascii) : is_lower (upper_ascii c) = false.
Proof.
  destruct c as [[|] [|] [|] [|] [|] [|] [|] [|]]; reflexivity.
Qed.

Lemma upper_is_upper (s : string) : is_upper (upper s) = true.
Proof.
  induction s as [|c s IH]; simpl.
  - reflexivity.
  - now rewrite upper_ascii_not_lower, IH.
Qed.

Lemma is_upper_fixed (s : string) : is_upper s = true -> upper s = s.
Proof.
  induction s as [|c s IH]; simpl; intros H.
  - reflexivity.
  - apply andb_true_iff in H. destruct H as [Hc Hs].
    unfold upper_ascii. apply negb_true_iff in Hc. rewrite Hc.
    now rewrite IH.
Qed.

Lemma upper_idempotent (s : string) : upper (upper s) = upper s.
Proof. apply is_upper_fixed, upper_is_upper. Qed.

(** ** Volume weighted price *)

Lemma fold_left_Qplus (xs : list Q) (a : Q) :
  (fold_left Qplus xs a == a + Qsum xs)%Q.
Proof.
  revert a. induction xs as [|x xs IH]; intros a; simpl.
  - ring.
  - rewrite IH. ring.
Qed.

Lemma py_sum_Qsum (xs : list Q) : (py_sum xs == Qsum xs)%Q.
Proof. unfold py_sum. rewrite fold_left_Qplus. ring. Qed.

Lemma Qsum_quantity (ts : list Trade) :
  (Qsum (map (fun t => inject_Z (quantity t)) ts) == inject_Z (total_quantity ts))%Q.
Proof.
  induction ts as [|t ts IH]; simpl.
  - reflexivity.
  - rewrite IH, inject_Z_plus. reflexivity.
Qed.

Lemma py_sum_quantity (ts : list Trade) :
  (py_sum (map (fun t => inject_Z (quantity t)) ts) == inject_Z (total_quantity ts))%Q.
Proof. now rewrite py_sum_Qsum, Qsum_quantity. Qed.

Lemma inject_Z_zero_iff (z : Z) : (inject_Z z == 0)%Q <-> z = 0%Z.
Proof.
  unfold Qeq. simpl. lia.
Qed.

(** C3. A sequence of trades whose quantities do not sum to zero has the
    volume weighted price Σ(price·quantity) / Σ(quantity); on the empty
    sequence, and on any sequence whose quantities sum to zero, the function
    raises [ZeroDivisionError]. *)
Theorem volume_weighted_price_spec (ts : list Trade) :
  match volume_weighted_price ts with
  | Ok v =>
      total_quantity ts <> 0%Z /\
      (v == total_value ts / inject_Z (total_quantity ts))%Q
  | Raise e =>
      e = ZeroDivisionError /\ total_quantity ts = 0%Z
  end
  /\ volume_weighted_price [] = Raise ZeroDivisionError.
Proof.
  split; [|reflexivity].
  unfold volume_weighted_price.
  match goal with
  | |- context [py_div ?a ?b] => destruct (py_div_cases a b) as [[Hz E]|[Hz E]]
  end; rewrite E; rewrite py_sum_quantity, inject_Z_zero_iff in Hz.
  - split; [reflexivity | assumption].
  - split; [assumption|].
    unfold total_value.
    rewrite (py_sum_Qsum (map (fun t => (price t * inject_Z (quantity t))%Q) ts)).
    rewrite py_sum_quantity. reflexivity.
Qed.

(** The unit test of [volume_weighted_price]: 16 at 100 and 8 at 50. *)
Example volume_weighted_price_test (s : Stock) :
  exists v,
    volume_weighted_price [mkTrade s 16 buy 100 0; mkTrade s 8 buy 50 0] = Ok v
    /\ (v == 250 # 3)%Q.
Proof. eexists. split; reflexivity. Qed.

(** A buy and a sell-sized negative quantity cancel: the divisor is zero. *)
Example volume_weighted_price_cancel (s : Stock) :
  volume_weighted_price [mkTrade s 5 buy 100 0; mkTrade s (-5) sell 90 0]
    = Raise ZeroDivisionError.
Proof. reflexivity. Qed.

(* ------------------------------------------------------------------ *)
(** ** Computations that leave the exchange alone *)

Lemma read_only_ret {A : Type} (a : A) : read_only (ret a).
Proof. intros w. reflexivity. Qed.

Lemma read_only_lift {A : Type} (r : result A) : read_only (lift r).
Proof. intros w. reflexivity. Qed.

Lemma read_only_utcnow : read_only utcnow.
Proof. intros w. reflexivity. Qed.

Lemma read_only_get_trades : read_only get_trades.
Proof. intros w. reflexivity. Qed.

Lemma read_only_bind {A B : Type} (m : M A) (k : A -> M B) :
  read_only m -> (forall a, read_only (k a)) -> read_only (bind m k).
Proof.
  intros Hm Hk w. unfold bind.
  specialize (Hm w). destruct (m w) as [[a|e] w1]; simpl in *.
  - now rewrite Hk.
  - assumption.
Qed.

Create HintDb frame.
#[local] Hint Resolve read_only_ret read_only_lift read_only_utcnow
  read_only_get_trades : frame.

Ltac frame_step :=
  first [ apply read_only_bind; [|intros ?] | solve [auto with frame] ].

Lemma read_only_filterM {A : Type} (cond : A -> M bool) (l : list A) :
  (forall x, read_only (cond x)) -> read_only (filterM cond l).
Proof.
  intros Hc. induction l as [|x l IH]; simpl.
  - apply read_only_ret.
  - repeat frame_step; auto.
Qed.

Lemma read_only_include (duration : option Z) (t : Trade) :
  read_only (include duration t).
Proof.
  unfold include. destruct duration as [d|]; [|auto with frame].
  destruct (d =? 0)%Z; repeat frame_step.
Qed.

Lemma read_only_price_by_stock (sym : string) (duration : Z) :
  read_only (price_by_stock sym duration).
Proof.
  unfold price_by_stock.
  apply read_only_bind; [auto with frame | intros all].
  apply read_only_bind; [|intros sel].
  - apply read_only_filterM. intros t.
    destruct (String.eqb _ _); repeat frame_step.
  - destruct sel; repeat frame_step.
Qed.

Lemma read_only_all_share_index (duration : option Z) :
  read_only (all_share_index duration).
Proof.
  unfold all_share_index.
  apply read_only_bind; [auto with frame | intros all].
  apply read_only_bind; [|intros sel].
  - apply read_only_filterM. intros t. apply read_only_include.
  - destruct (sorted stock_symbol sel); repeat frame_step.
Qed.

(** C10. [price_by_stock] and [all_share_index] are read-only: whatever
    the state and the arguments, and whether the call returns or raises, the
    exchange afterwards is the exchange before, so the ledger has the same
    length, the same order and the same trades with the same fields. *)
Theorem queries_read_only (w : World) :
  (forall sym duration,
     exchange (snd (price_by_stock sym duration w)) = exchange w) /\
  (forall duration,
     exchange (snd (all_share_index duration w)) = exchange w).
Proof.
  split; intros.
  - apply read_only_price_by_stock.
  - apply read_only_all_share_index.
Qed.

(** ** The ledger *)

Lemma record_trade_trades (t : Trade) (w : World) :
  trades (exchange (snd (record_trade t w))) = trades (exchange w) ++ [t].
Proof. reflexivity. Qed.

Lemma run_op_extends (o : Op) (w : World) :
  exists suffix,
    trades (exchange (run_op o w)) = trades (exchange w) ++ suffix.
Proof.
  destruct o as [t|sym d|d]; simpl.
  - exists [t]. apply record_trade_trades.
  - exists []. rewrite read_only_price_by_stock. now rewrite app_nil_r.
  - exists []. rewrite read_only_all_share_index. now rewrite app_nil_r.
Qed.

Lemma run_ops_cons (o : Op) (ops : list Op) (w : World) :
  run_ops (o :: ops) w = run_ops ops (run_op o w).
Proof. reflexivity. Qed.

Lemma run_ops_extends (ops : list Op) (w : World) :
  exists suffix,
    trades (exchange (run_ops ops w)) = trades (exchange w) ++ suffix.
Proof.
  revert w. induction ops as [|o ops IH]; intros w.
  - exists []. simpl. now rewrite app_nil_r.
  - destruct (IH (run_op o w)) as [s2 H2].
    destruct (run_op_extends o w) as [s1 H1].
    exists (s1 ++ s2). rewrite run_ops_cons, H2, H1.
    now rewrite app_assoc.
Qed.

Lemma run_ops_records (ts : list Trade) (w : World) :
  trades (exchange (run_ops (map OpRecord ts) w)) = trades (exchange w) ++ ts.
Proof.
  revert w. induction ts as [|t ts IH]; intros w.
  - simpl. now rewrite app_nil_r.
  - simpl map. rewrite run_ops_cons, IH. simpl.
    now rewrite <- app_assoc.
Qed.

(** C8. A new exchange has an empty ledger; recording the trades [ts] on it
    one after the other leaves the ledger equal to [ts], so entry [i] is the
    [i]-th recorded trade; and every sequence of operations only extends the
    ledger at its end. *)
Theorem ledger_append_only :
  trades Exchange_init = [] /\
  (forall (c : Clock) (ts : list Trade) (i : nat),
     let w := run_ops (map OpRecord ts) (mkWorld Exchange_init c) in
     List.length (trades (exchange w)) = List.length ts /\
     nth_error (trades (exchange w)) i = nth_error ts i) /\
  (forall (ops : list Op) (w : World),
     exists suffix,
       trades (exchange (run_ops ops w)) = trades (exchange w) ++ suffix).
Proof.
  split; [reflexivity|]. split.
  - intros c ts i w. subst w. rewrite run_ops_records. simpl. auto.
  - apply run_ops_extends.
Qed.

(** C9. The constructor stores the uppercased symbol, which holds no
    lowercase letter; and a trade on that stock, once recorded, stays in its
    ledger position with the same stock, hence the same symbol, whatever
    operations follow. *)
Theorem symbol_uppercase (cls : StockClass) (sym : string) (d par : Z)
    (f : option Q) :
  let s := Stock_init cls sym d par f in
  symbol s = upper sym /\
  is_upper (symbol s) = true /\
  upper (symbol s) = symbol s /\
  (forall qty a p ts (w : World) (ops : list Op),
     let t := mkTrade s qty a p ts in
     let w' := run_ops (OpRecord t :: ops) w in
     exists t',
       nth_error (trades (exchange w')) (List.length (trades (exchange w)))
         = Some t'
       /\ stock t' = s /\ is_upper (symbol (stock t')) = true).
Proof.
  intros s. split; [reflexivity|]. split; [apply upper_is_upper|].
  split; [apply upper_idempotent|].
  intros qty a p ts w ops t w'. subst w'.
  destruct (run_ops_extends ops (run_op (OpRecord t) w)) as [suffix H].
  exists t. rewrite run_ops_cons, H.
  change (run_op (OpRecord t) w) with (snd (record_trade t w)).
  rewrite record_trade_trades, <- app_assoc.
  rewrite nth_error_app2 by lia.
  rewrite Nat.sub_diag. simpl.
  split; [reflexivity|]. split; [reflexivity|apply upper_is_upper].
Qed.

(* ------------------------------------------------------------------ *)
(** ** Queries under a clock that does not move during the call *)

Lemma yields_ret {A : Type} (now : Z) (a : A) : yields now (ret a) (Ok a).
Proof. intros w Hw. split; [reflexivity | assumption]. Qed.

Lemma yields_lift {A : Type} (now : Z) (r : result A) : yields now (lift r) r.
Proof. intros w Hw. split; [reflexivity | assumption]. Qed.

Lemma yields_utcnow (now : Z) : yields now utcnow (Ok now).
Proof.
  intros w Hw. split.
  - simpl. now rewrite Hw.
  - intros k. simpl. apply Hw.
Qed.

Lemma yields_bind {A B : Type} (now : Z) (m : M A) (k : A -> M B)
    (a : A) (r : result B) :
  yields now m (Ok a) -> yields now (k a) r -> yields now (bind m k) r.
Proof.
  intros Hm Hk w Hw. unfold bind.
  destruct (Hm w Hw) as [E F]. destruct (m w) as [[a'|e] w1]; simpl in *.
  - injection E as ->. now apply Hk.
  - discriminate.
Qed.

Lemma yields_bind_raise {A B : Type} (now : Z) (m : M A) (k : A -> M B)
    (e : exn) :
  yields now m (Raise e) -> yields now (bind m k) (Raise e).
Proof.
  intros Hm w Hw. unfold bind.
  destruct (Hm w Hw) as [E F]. destruct (m w) as [[a'|e'] w1]; simpl in *.
  - discriminate.
  - injection E as ->. split; [reflexivity | assumption].
Qed.

Lemma yields_filterM {A : Type} (now : Z) (cond : A -> M bool)
    (p : A -> bool) (l : list A) :
  (forall x, yields now (cond x) (Ok (p x))) ->
  yields now (filterM cond l) (Ok (filter p l)).
Proof.
  intros Hc. induction l as [|x l IH]; simpl.
  - apply yields_ret.
  - eapply yields_bind; [apply Hc|].
    eapply yields_bind; [apply IH|].
    destruct (p x); apply yields_ret.
Qed.

Lemma matches_spec (sym : string) (duration now : Z) (t : Trade) :
  matches sym duration now t = true <->
  symbol (stock t) = upper sym /\ (timestamp t >= now - seconds duration)%Z.
Proof.
  unfold matches, in_window, stock_symbol.
  rewrite andb_true_iff, String.eqb_eq, Z.leb_le.
  split; intros [Hs Ht]; (split; [assumption | lia]).
Qed.

Lemma filter_nil_iff {A : Type} (p : A -> bool) (l : list A) :
  filter p l = [] <-> forall x, In x l -> p x = false.
Proof.
  induction l as [|x l IH]; simpl.
  - tauto.
  - destruct (p x) eqn:E.
    + split; [discriminate|]. intros H. specialize (H x (or_introl eq_refl)).
      congruence.
    + rewrite IH. split.
      * intros H y [<-|Hy]; auto.
      * intros H y Hy. auto.
Qed.

Lemma price_by_stock_yields (sym : string) (duration now : Z) (w : World) :
  frozen (clock w) now ->
  fst (price_by_stock sym duration w) =
    match filter (matches sym duration now) (trades (exchange w)) with
    | [] => Ok None
    | sel => rbind (volume_weighted_price sel) (fun p => Ok (Some p))
    end.
Proof.
  intros Hw.
  assert (H : yields now
                (sel <- filterM
                   (fun trade =>
                      if String.eqb (symbol (stock trade)) (upper sym)
                      then t <- utcnow ;;
                           ret (t - seconds duration <=? timestamp trade)%Z
                      else ret false)
                   (trades (exchange w)) ;;
                 match sel with
                 | [] => ret None
                 | _ :: _ =>
                     p <- lift (volume_weighted_price sel) ;; ret (Some p)
                 end)
                match filter (matches sym duration now) (trades (exchange w)) with
                | [] => Ok None
                | sel => rbind (volume_weighted_price sel) (fun p => Ok (Some p))
                end).
  { eapply yields_bind.
    - apply yields_filterM with (p := matches sym duration now).
      intros t. unfold matches, stock_symbol, in_window.
      destruct (String.eqb _ _); simpl.
      + eapply yields_bind; [apply yields_utcnow | apply yields_ret].
      + apply yields_ret.
    - destruct (filter _ _) as [|t sel]; [apply yields_ret|].
      destruct (volume_weighted_price (t :: sel)) as [v|e] eqn:E; simpl.
      + eapply yields_bind; [apply yields_lift | apply yields_ret].
      + apply yields_bind_raise, yields_lift. }
  apply (H w Hw).
Qed.

(* ------------------------------------------------------------------ *)
(** ** The order on strings *)

Lemma leb_refl (s : string) : String.leb s s = true.
Proof.
  unfold String.leb.
  assert (E : String.compare s s = Eq) by now apply String_as_OT.cmp_eq.
  now rewrite E.
Qed.

Lemma leb_false_lt (s1 s2 : string) :
  String.leb s1 s2 = false -> String_as_OT.lt s2 s1.
Proof.
  unfold String.leb. intros H.
  apply String_as_OT.cmp_lt. unfold String_as_OT.cmp.
  rewrite String.compare_antisym.
  destruct (String.compare s1 s2); simpl; congruence.
Qed.

Lemma lt_leb_false (s1 s2 : string) :
  String_as_OT.lt s2 s1 -> String.leb s1 s2 = false.
Proof.
  intros H. apply String_as_OT.cmp_lt in H. unfold String_as_OT.cmp in H.
  unfold String.leb. rewrite String.compare_antisym, H. reflexivity.
Qed.

Lemma leb_trans (s1 s2 s3 : string) :
  String.leb s1 s2 = true -> String.leb s2 s3 = true ->
  String.leb s1 s3 = true.
Proof.
  intros H12 H23.
  destruct (String.leb s1 s3) eqn:E13; [reflexivity|].
  apply leb_false_lt in E13.
  destruct (String.leb s3 s2) eqn:E32.
  - assert (s2 = s3) by now apply String.leb_antisym.
    subst s3. apply lt_leb_false in E13. congruence.
  - apply leb_false_lt in E32.
    pose proof (String_as_OT.lt_trans s2 s3 s1 E32 E13) as H.
    apply lt_leb_false in H. congruence.
Qed.

(* ------------------------------------------------------------------ *)
(** ** Sorting by key, then grouping, gives one group per key *)

Section SortGroupFacts.

Variable A : Type.
Variable key : A -> string.

Lemma with_key_insert_sorted (k : string) (x : A) (l : list A) :
  with_key key k (insert_sorted key x l) = with_key key k (x :: l).
Proof.
  unfold with_key. induction l as [|y l IH]; [reflexivity|].
  simpl insert_sorted. destruct (String.leb (key x) (key y)) eqn:E.
  - reflexivity.
  - simpl in *. rewrite IH.
    destruct (String.eqb (key x) k) eqn:Ex;
      destruct (String.eqb (key y) k) eqn:Ey; try reflexivity.
    apply String.eqb_eq in Ex, Ey. rewrite Ex, Ey, leb_refl in E.
    discriminate.
Qed.

(** [sorted] is stable: items with the same key keep their order. *)
Lemma with_key_sorted (k : string) (l : list A) :
  with_key key k (sorted key l) = with_key key k l.
Proof.
  induction l as [|x l IH]; [reflexivity|].
  simpl sorted. rewrite with_key_insert_sorted.
  unfold with_key in *. simpl. now rewrite IH.
Qed.

Lemma In_insert_sorted (x y : A) (l : list A) :
  In y (insert_sorted key x l) <-> y = x \/ In y l.
Proof.
  induction l as [|z l IH]; simpl.
  - intuition.
  - destruct (String.leb (key x) (key z)); simpl; [intuition|].
    rewrite IH. intuition.
Qed.

Lemma In_sorted (y : A) (l : list A) : In y (sorted key l) <-> In y l.
Proof.
  induction l as [|x l IH]; simpl; [tauto|].
  rewrite In_insert_sorted, IH. intuition.
Qed.

Lemma sorted_nil_iff (l : list A) : sorted key l = [] <-> l = [].
Proof.
  split; [|intros ->; reflexivity].
  destruct l as [|x l]; [reflexivity|]. intros H. exfalso.
  assert (Hin : In x (sorted key (x :: l))) by (apply In_sorted; now left).
  rewrite H in Hin. destruct Hin.
Qed.

Lemma insert_sorted_StronglySorted (x : A) (l : list A) :
  StronglySorted (key_le key) l -> StronglySorted (key_le key) (insert_sorted key x l).
Proof.
  induction 1 as [|y l Hs IH Hall]; simpl.
  - repeat constructor.
  - destruct (String.leb (key x) (key y)) eqn:E.
    + constructor; [now constructor|].
      constructor; [exact E|].
      rewrite Forall_forall in *. intros z Hz.
      unfold key_le in *. eapply leb_trans; [exact E | now apply Hall].
    + constructor; [assumption|].
      rewrite Forall_forall in *. intros z Hz.
      apply In_insert_sorted in Hz. destruct Hz as [->|Hz]; [|now apply Hall].
      unfold key_le. destruct (String.leb_total (key y) (key x)); congruence.
Qed.

Lemma sorted_StronglySorted (l : list A) :
  StronglySorted (key_le key) (sorted key l).
Proof.
  induction l as [|x l IH]; simpl.
  - constructor.
  - now apply insert_sorted_StronglySorted.
Qed.

Lemma groupby_nil_iff (l : list A) : groupby key l = [] <-> l = [].
Proof.
  split; [|intros ->; reflexivity].
  destruct l as [|x l]; [reflexivity|]. simpl.
  destruct (groupby key l) as [|[k g] rest]; [discriminate|].
  destruct (String.eqb (key x) k); discriminate.
Qed.

Lemma groupby_head (x : A) (l : list A) k g rest :
  groupby key (x :: l) = (k, g) :: rest -> k = key x.
Proof.
  simpl. destruct (groupby key l) as [|[k' g'] rest'].
  - now intros [= <- _ _].
  - destruct (String.eqb (key x) k') eqn:E.
    + apply String.eqb_eq in E. now intros [= <- _ _].
    + now intros [= <- _ _].
Qed.

Lemma In_group_keys (k : string) (l : list A) :
  In k (group_keys key l) <-> exists x, In x l /\ key x = k.
Proof.
  unfold group_keys. induction l as [|x l IH]; simpl.
  - split; [tauto | intros [x [[] _]]].
  - destruct (groupby key l) as [|[k' g'] rest] eqn:E.
    + apply groupby_nil_iff in E. subst l. simpl. split.
      * intros [<-|[]]. exists x. auto.
      * intros [y [[<-|[]] Hy]]. now left.
    + destruct (String.eqb (key x) k') eqn:Ex.
      * apply String.eqb_eq in Ex. simpl in *. rewrite IH. split.
        -- intros [y [Hy Hk]]. exists y. auto.
        -- intros [y [[<-|Hy] Hk]]; [|exists y; auto].
           apply IH. left. congruence.
      * simpl in *. rewrite IH. split.
        -- intros [<-|[y [Hy Hk]]]; [exists x | exists y]; auto.
        -- intros [y [[<-|Hy] Hk]]; [now left|]. right. exists y; auto.
Qed.

Lemma with_key_cons_other (k : string) (x : A) (l : list A) :
  key x <> k -> with_key key k (x :: l) = with_key key k l.
Proof.
  intros H. unfold with_key. simpl.
  apply String.eqb_neq in H. now rewrite H.
Qed.

Lemma with_key_cons_same (x : A) (l : list A) :
  with_key key (key x) (x :: l) = x :: with_key key (key x) l.
Proof. unfold with_key. simpl. now rewrite String.eqb_refl. Qed.

Lemma with_key_none (k : string) (l : list A) :
  (forall z, In z l -> key z <> k) -> with_key key k l = [].
Proof.
  intros H. apply filter_nil_iff. intros z Hz.
  apply String.eqb_neq. now apply H.
Qed.

(** On a list sorted by key, [groupby] yields exactly one group per key,
    holding all the items with that key. *)
Lemma groupby_StronglySorted (l : list A) :
  StronglySorted (key_le key) l ->
  groupby key l = map (fun k => (k, with_key key k l)) (group_keys key l) /\
  NoDup (group_keys key l).
Proof.
  induction 1 as [|x l Hs IH Hall].
  - split; [reflexivity | constructor].
  - destruct IH as [IHg IHn]. unfold group_keys in *. simpl.
    destruct (groupby key l) as [|[k g] rest] eqn:E.
    + apply groupby_nil_iff in E. subst l. simpl.
      rewrite with_key_cons_same. split; [reflexivity|].
      constructor; [intros [] | constructor].
    + simpl in IHg, IHn. injection IHg as Hg Hrest.
      apply NoDup_cons_iff in IHn. destruct IHn as [Hk Hnd].
      destruct (String.eqb (key x) k) eqn:Ex.
      * apply String.eqb_eq in Ex. subst k. simpl. split.
        -- f_equal; [now rewrite with_key_cons_same, <- Hg|].
           rewrite Hrest at 1. apply map_ext_in. intros k' Hk'.
           f_equal. symmetry. apply with_key_cons_other.
           intros H. rewrite <- H in Hk'. contradiction.
        -- now constructor.
      * apply String.eqb_neq in Ex.
        assert (Hfresh : forall z, In z l -> key z <> key x).
        { intros z Hz Hzx. destruct l as [|y l']; [destruct Hz|].
          pose proof (groupby_head _ _ E) as ->.
          rewrite Forall_forall in Hall.
          assert (Hxy : (key_le key) x y) by (apply Hall; now left).
          assert (Hyz : (key_le key) y z).
          { destruct Hz as [<-|Hz]; [apply leb_refl|].
            inversion Hs as [|? ? _ Hy]; subst.
            rewrite Forall_forall in Hy. now apply Hy. }
          unfold key_le in *. rewrite Hzx in Hyz.
          apply Ex. now apply String.leb_antisym. }
        assert (Hnot : ~ In (key x) (k :: map fst rest)).
        { intros Hin.
          assert (Hin' : In (key x) (group_keys key l))
            by (unfold group_keys; now rewrite E).
          apply In_group_keys in Hin'. destruct Hin' as [z [Hz Hzx]].
          now apply (Hfresh z). }
        simpl. split.
        -- f_equal; [|f_equal].
           ++ rewrite with_key_cons_same, with_key_none; auto.
           ++ rewrite with_key_cons_other, <- Hg; auto.
           ++ rewrite Hrest at 1. apply map_ext_in. intros k' Hk'.
              f_equal. symmetry. apply with_key_cons_other.
              intros H. apply Hnot. right. now rewrite H.
        -- constructor; [exact Hnot|]. now constructor.
Qed.

(** [groupby] after [sorted]: one group per key of [l], each holding the
    items of [l] with that key in their original order. *)
Lemma groupby_sorted (l : list A) :
  let ks := group_keys key (sorted key l) in
  groupby key (sorted key l) = map (fun k => (k, with_key key k l)) ks /\
  NoDup ks /\
  (forall k, In k ks <-> exists x, In x l /\ key x = k).
Proof.
  intros ks.
  destruct (groupby_StronglySorted (sorted_StronglySorted l)) as [Hg Hn].
  split; [|split].
  - rewrite Hg. apply map_ext. intros k. now rewrite with_key_sorted.
  - exact Hn.
  - intros k. unfold ks. rewrite In_group_keys. split.
    + intros [x [Hx Hk]]. exists x. split; [now apply In_sorted | exact Hk].
    + intros [x [Hx Hk]]. exists x. split; [now apply In_sorted | exact Hk].
Qed.

End SortGroupFacts.

(* ------------------------------------------------------------------ *)
(** ** Products, powers and the geometric mean *)

Lemma fold_left_Qmult (xs : list Q) (a : Q) :
  (fold_left Qmult xs a == a * Qprod xs)%Q.
Proof.
  revert a. induction xs as [|x xs IH]; intros a; simpl.
  - ring.
  - rewrite IH. ring.
Qed.

Lemma reduce_mul_Qprod (x : Q) (xs : list Q) :
  exists p, reduce_mul (x :: xs) = Ok p /\ (p == Qprod (x :: xs))%Q.
Proof.
  simpl. eexists. split; [reflexivity|]. apply fold_left_Qmult.
Qed.

(** [float_pow] depends on the values of its arguments only, not on how the
    fractions are written. *)
Lemma float_pow_proper (x x' e e' : Q) :
  (x == x')%Q -> (e == e')%Q -> float_pow x e = float_pow x' e'.
Proof.
  intros Hx He. unfold float_pow.
  rewrite (Qred_complete _ _ He).
  assert (Ex : Q2R x = Q2R x') by now apply Qeq_eqR.
  assert (Ee : Q2R e = Q2R e') by now apply Qeq_eqR.
  assert (En : Q2R (- x) = Q2R (- x')) by (apply Qeq_eqR; now rewrite Hx).
  rewrite Ex, Ee, En.
  assert (Cx : (x ?= 0)%Q = (x' ?= 0)%Q) by now rewrite Hx.
  assert (Ce : (e ?= 0)%Q = (e' ?= 0)%Q) by now rewrite He.
  now rewrite Cx, Ce.
Qed.

(* ------------------------------------------------------------------ *)
(** ** The all share index *)

Lemma yields_lift_bind {A B : Type} (now : Z) (r : result A) (k : A -> M B)
    (kr : A -> result B) :
  (forall a, yields now (k a) (kr a)) ->
  yields now (bind (lift r) k) (rbind r kr).
Proof.
  intros Hk. destruct r as [a|e]; simpl.
  - eapply yields_bind; [apply yields_lift | apply Hk].
  - apply yields_bind_raise, yields_lift.
Qed.

Lemma yields_include (now : Z) (duration : option Z) (t : Trade) :
  yields now (include duration t) (Ok (included duration now t)).
Proof.
  unfold include, included. destruct duration as [d|]; [|apply yields_ret].
  destruct (d =? 0)%Z; [apply yields_ret|].
  eapply yields_bind; [apply yields_utcnow | apply yields_ret].
Qed.

Lemma all_share_index_yields (duration : option Z) (now : Z) (w : World) :
  frozen (clock w) now ->
  fst (all_share_index duration w) =
    index_of (filter (included duration now) (trades (exchange w))).
Proof.
  intros Hw.
  assert (H : yields now
                (sel <- filterM (include duration) (trades (exchange w)) ;;
                 match sorted stock_symbol sel with
                 | [] => ret None
                 | (_ :: _) as ts =>
                     let groups := groupby stock_symbol ts in
                     prices <- lift (mapR (fun g => volume_weighted_price (snd g))
                                       groups) ;;
                     product <- lift (reduce_mul prices) ;;
                     e <- lift (py_div 1
                                  (inject_Z (Z.of_nat (List.length prices)))) ;;
                     v <- lift (float_pow product e) ;;
                     ret (Some v)
                 end)
                (index_of (filter (included duration now)
                             (trades (exchange w))))).
  { eapply yields_bind.
    - apply yields_filterM. intros t. apply yields_include.
    - unfold index_of.
      destruct (sorted stock_symbol _) as [|t ts]; [apply yields_ret|].
      cbv zeta.
      apply yields_lift_bind. intros prices.
      apply yields_lift_bind. intros product.
      apply yields_lift_bind. intros e.
      apply yields_lift_bind. intros v.
      apply yields_ret. }
  apply (H w Hw).
Qed.

Lemma mapR_map {A B C : Type} (f : B -> result C) (h : A -> B) (l : list A) :
  mapR f (map h l) = mapR (fun x => f (h x)) l.
Proof.
  induction l as [|x l IH]; simpl; [reflexivity|]. now rewrite IH.
Qed.

Lemma mapR_length {A B : Type} (f : A -> result B) (l : list A) (ys : list B) :
  mapR f l = Ok ys -> List.length ys = List.length l.
Proof.
  revert ys. induction l as [|x l IH]; intros ys; simpl.
  - now intros [= <-].
  - destruct (f x) as [y|e]; simpl; [|discriminate].
    destruct (mapR f l) as [ys'|e]; simpl; [|discriminate].
    intros [= <-]. simpl. f_equal. now apply IH.
Qed.

(** The index of a non-empty selection: the geometric mean of the volume
    weighted prices of the per-symbol groups. *)
Lemma index_of_groups (sel : list Trade) :
  sel <> [] ->
  let ks := group_keys stock_symbol (sorted stock_symbol sel) in
  ks <> [] /\
  index_of sel =
    rbind (mapR (fun k => volume_weighted_price (symbol_group k sel)) ks)
      (fun prices => rbind (geometric_mean prices) (fun v => Ok (Some v))).
Proof.
  intros Hne ks.
  destruct (groupby_sorted stock_symbol sel) as [Hg _]. fold ks in Hg.
  assert (Hks : ks <> []).
  { unfold ks, group_keys. intros E. apply map_eq_nil in E.
    apply groupby_nil_iff, sorted_nil_iff in E. contradiction. }
  split; [exact Hks|].
  unfold index_of.
  destruct (sorted stock_symbol sel) as [|t ts] eqn:Es.
  { apply sorted_nil_iff in Es. contradiction. }
  rewrite Hg, mapR_map. cbn [snd]. unfold symbol_group.
  destruct (mapR _ ks) as [prices|e] eqn:Ep; [|reflexivity].
  cbn [rbind].
  pose proof (mapR_length _ _ Ep) as Hlen.
  destruct prices as [|x xs].
  { destruct ks; [contradiction | discriminate]. }
  destruct (reduce_mul_Qprod x xs) as [p [Er Hp]]. rewrite Er. cbn [rbind].
  rewrite py_div_ok by (rewrite inject_Z_zero_iff; simpl List.length; lia).
  cbn [rbind]. unfold geometric_mean.
  now rewrite (float_pow_proper Hp (Qeq_refl _)).
Qed.

Lemma included_spec (duration : option Z) (now : Z) (t : Trade) :
  included duration now t = true <->
  (exists d, duration = Some d /\ d <> 0%Z /\
             (timestamp t >= now - seconds d)%Z)
  \/ duration = Some 0%Z \/ duration = None.
Proof.
  unfold included, in_window. destruct duration as [d|].
  - destruct (Z.eqb_spec d 0) as [->|Hd].
    + split; auto.
    + rewrite Z.leb_le. split.
      * intros H. left. exists d. repeat split; [assumption | lia].
      * intros [[d' [[= <-] [_ H]]]|[[= ->]|[=]]]; [lia | contradiction].
  - split; auto.
Qed.

(** Sorting and grouping by the stored symbol: two trades whose stored
    symbols differ in any way, be it only in letter case, are put in two
    different groups, each group holding all the trades with exactly that
    stored symbol. *)
Lemma index_groups_case_sensitive (sel : list Trade) (t1 t2 : Trade) :
  In t1 sel -> In t2 sel ->
  symbol (stock t1) <> symbol (stock t2) ->
  let groups := groupby stock_symbol (sorted stock_symbol sel) in
  let g1 := symbol_group (symbol (stock t1)) sel in
  let g2 := symbol_group (symbol (stock t2)) sel in
  In (symbol (stock t1), g1) groups /\
  In (symbol (stock t2), g2) groups /\
  In t1 g1 /\ In t2 g2 /\ ~ In t1 g2 /\ ~ In t2 g1 /\
  (forall k g, In (k, g) groups ->
     g = symbol_group k sel /\ ~ (In t1 g /\ In t2 g)).
Proof.
  intros H1 H2 Hneq groups g1 g2.
  destruct (groupby_sorted stock_symbol sel) as [Hg [_ Hin]].
  fold groups in Hg.
  assert (Hmem : forall t k, In t (symbol_group k sel) <->
                             In t sel /\ symbol (stock t) = k).
  { intros t k. unfold symbol_group, with_key, stock_symbol.
    rewrite filter_In, String.eqb_eq. reflexivity. }
  assert (Hgrp : forall t, In t sel ->
            In (symbol (stock t), symbol_group (symbol (stock t)) sel) groups).
  { intros t Ht. rewrite Hg.
    apply in_map_iff. exists (symbol (stock t)). split; [reflexivity|].
    apply Hin. exists t. now split. }
  repeat split.
  - now apply Hgrp.
  - now apply Hgrp.
  - apply Hmem. now split.
  - apply Hmem. now split.
  - intros Hc. apply Hmem in Hc. now destruct Hc.
  - intros Hc. apply Hmem in Hc. destruct Hc as [_ Hc]. congruence.
  - rewrite Hg in H. apply in_map_iff in H.
    destruct H as [k' [[= <- <-] _]]. reflexivity.
  - intros [Ha Hb]. rewrite Hg in H. apply in_map_iff in H.
    destruct H as [k' [[= <- <-] _]].
    apply Hmem in Ha, Hb. destruct Ha as [_ Ha]. destruct Hb as [_ Hb].
    congruence.
Qed.

(* ------------------------------------------------------------------ *)
(** ** The acceptance scenario *)

Example acceptance_ledger :
  trades (exchange acceptance_world) = acceptance_trades.
Proof. reflexivity. Qed.

Lemma acceptance_frozen : frozen (clock acceptance_world) acceptance_now.
Proof. intros k. reflexivity. Qed.

(** The prices of the integration test: 32, 12 and 256, and no price for a
    stock that was not traded. *)
Example acceptance_prices :
  exists a b c,
    fst (price_by_stock "TEA" 300 acceptance_world) = Ok (Some a) /\
    fst (price_by_stock "POP" 300 acceptance_world) = Ok (Some b) /\
    fst (price_by_stock "GIN" 300 acceptance_world) = Ok (Some c) /\
    (a == 32)%Q /\ (b == 12)%Q /\ (c == 256)%Q /\
    fst (price_by_stock "ALE" 300 acceptance_world) = Ok None.
Proof. do 3 eexists. repeat split; reflexivity. Qed.

(** ** Stored symbols that differ in case only *)

(** The index over those two trades is the mean of two prices, while
    [price_by_stock] finds the trade with the uppercase symbol only. *)
Example case_index :
  let w := mkWorld (mkExchange case_trades) (mkClock (fun _ => 0%Z) 0) in
  fst (all_share_index None w) =
    rbind (geometric_mean [40; 90]%Q) (fun v => Ok (Some v))
  /\ fst (price_by_stock "tea" 300 w) = Ok (Some (400 # 10))
  /\ fst (price_by_stock "TEA" 300 w) = Ok (Some (400 # 10)).
Proof.
  intros w. split; [|split; reflexivity].
  rewrite (@all_share_index_yields None 0%Z w) by (intros k; reflexivity).
  replace (filter _ _) with case_trades by reflexivity.
  destruct (@index_of_groups case_trades) as [_ H]; [discriminate|].
  rewrite H. clear H.
  replace (mapR _ _) with (@Ok (list Q) [400 # 10; 900 # 10])%Q by reflexivity.
  cbn [rbind]. f_equal. unfold geometric_mean.
  apply float_pow_proper; reflexivity.
Qed.

(** ** A clock that moves during the call *)

(** Two trades on one stock with the same timestamp; the clock shows 10 s
    at the first reading and 20 s at the second.  With a window of 10 s the
    first trade is inside the window of its own reading and the second is
    outside the window of the next one. *)
Example price_by_stock_moving_clock :
  let t1 := mkTrade POP 1 buy 8 0 in
  let t2 := mkTrade POP 1 buy 16 0 in
  let c := mkClock (fun k => (10000000 * Z.of_nat (S k))%Z) 0 in
  let w := mkWorld (mkExchange [t1; t2]) c in
  fst (price_by_stock "POP" 10 w) = Ok (Some (8 # 1)) /\
  reads (clock (snd (price_by_stock "POP" 10 w))) = 2%nat /\
  reads (clock (snd (price_by_stock "GIN" 10 w))) = 0%nat.
Proof. repeat split. Qed.

(* ------------------------------------------------------------------ *)
(** * Further properties *)

(** ** When the P/E ratio fails *)

Lemma Qdiv_zero_iff (a b : Q) :
  ~ (b == 0)%Q -> ((a / b == 0)%Q <-> (a == 0)%Q).
Proof.
  intros Hb. split; intros H.
  - assert (E : (a == a / b * b)%Q) by (field; exact Hb).
    rewrite E, H. ring.
  - rewrite H. field. exact Hb.
Qed.

Lemma yield_zero_raises (a p : Q) :
  (p == 0)%Q \/ (a == 0)%Q ->
  rbind (py_div a p) (fun y => py_div 1 y) = Raise ZeroDivisionError.
Proof.
  intros H.
  destruct (py_div_cases a p) as [[Hp E]|[Hp E]]; rewrite E; simpl;
    [reflexivity|].
  destruct H as [H|H]; [contradiction|].
  apply py_div_zero. now apply Qdiv_zero_iff.
Qed.

Lemma yield_outcome_other (a p : Q) (e : exn) :
  e <> ZeroDivisionError ->
  rbind (py_div a p) (fun y => py_div 1 y) <> Raise e.
Proof.
  intros He.
  destruct (py_div_cases a p) as [[Hp E]|[Hp E]]; rewrite E; simpl.
  - congruence.
  - destruct (py_div_cases 1 (a / p)) as [[Hy E']|[Hy E']]; rewrite E';
      congruence.
Qed.

(** X1. [NotImplementedError] comes from objects of the base class and
    from no other: [dividend_yield] and [pe_ratio] raise it exactly on them,
    at every price.  And [pe_ratio] fails with [ZeroDivisionError] on a
    common stock whenever the price or the last dividend is zero, and on a
    preferred stock whenever the fixed dividend is [None] or the price or
    [fixed_dividend * par_value] is zero. *)
Theorem pe_ratio_failures (s : Stock) (p : Q) :
  (dividend_yield s p = Raise NotImplementedError <-> class_of s = BaseStock) /\
  (pe_ratio s p = Raise NotImplementedError <-> class_of s = BaseStock) /\
  ((class_of s = CommonStock /\
    ((p == 0)%Q \/ last_dividend s = 0%Z)) \/
   (class_of s = PreferredStock /\
    match fixed_dividend s with
    | None => True
    | Some f => (p == 0)%Q \/ (f * inject_Z (par_value s) == 0)%Q
    end) ->
   pe_ratio s p = Raise ZeroDivisionError).
Proof.
  assert (D : forall a e, py_div a p = Raise e -> e = ZeroDivisionError).
  { intros a e. destruct (py_div_cases a p) as [[_ E]|[_ E]]; rewrite E;
      congruence. }
  unfold pe_ratio, dividend_yield.
  destruct (class_of s) eqn:Ec.
  - simpl. split; [tauto|]. split; [tauto|].
    intros [[H _]|[H _]]; discriminate.
  - split; [|split].
    + split; [|discriminate]. intros H. apply D in H. discriminate.
    + split; [|discriminate]. intros H. exfalso.
      revert H. apply yield_outcome_other. discriminate.
    + intros [[_ H]|[H _]]; [|discriminate].
      apply yield_zero_raises. now rewrite inject_Z_zero_iff.
  - destruct (fixed_dividend s) as [f|].
    + split; [|split].
      * split; [|discriminate]. intros H. apply D in H. discriminate.
      * split; [|discriminate]. intros H. exfalso.
        revert H. apply yield_outcome_other. discriminate.
      * intros [[H _]|[_ H]]; [discriminate|].
        now apply yield_zero_raises.
    + simpl. split; [split; discriminate|]. split; [split; discriminate|].
      reflexivity.
Qed.

Lemma pe_ratio_failures_witness :
  pe_ratio TEA 100 = Raise ZeroDivisionError /\
  pe_ratio (Stock_init PreferredStock "GIN" 8 100 None) 100
    = Raise ZeroDivisionError /\
  (pe_ratio (Stock_init BaseStock "TEST" 0 100 None) 100
     = Raise NotImplementedError <-> BaseStock = BaseStock).
Proof.
  split; [|split].
  - apply (pe_ratio_failures TEA 100). left. split; [reflexivity|].
    right. reflexivity.
  - apply (pe_ratio_failures (Stock_init PreferredStock "GIN" 8 100 None) 100).
    right. split; [reflexivity | exact I].
  - apply (pe_ratio_failures (Stock_init BaseStock "TEST" 0 100 None) 100).
Defined.

(** ** The printed form of a stock *)

Lemma append_length (a b : string) :
  String.length (a ++ b) = (String.length a + String.length b)%nat.
Proof. induction a as [|c a IH]; simpl; [reflexivity | now rewrite IH]. Qed.

Lemma append_inj_suffix (a b z : string) :
  (a ++ z)%string = (b ++ z)%string -> a = b.
Proof.
  revert b. induction a as [|c a IH]; intros [|c' b] H; simpl in *.
  - reflexivity.
  - exfalso. apply (f_equal String.length) in H. simpl in H.
    rewrite append_length in H. lia.
  - exfalso. apply (f_equal String.length) in H. simpl in H.
    rewrite append_length in H. lia.
  - injection H as -> H. f_equal. now apply IH.
Qed.

(** X3. The printed form of a stock tells its class and its symbol: two
    stocks print alike only if they are of the same class and have the same
    symbol. *)
Theorem Stock_repr_identifies (s s' : Stock) :
  Stock_repr s = Stock_repr s' ->
  class_of s = class_of s' /\ symbol s = symbol s'.
Proof.
  unfold Stock_repr.
  destruct (class_of s), (class_of s'); simpl; intros H;
    try discriminate H;
    (split; [reflexivity|]);
    injection H as H; now apply append_inj_suffix in H.
Qed.

Lemma Stock_repr_identifies_witness :
  Stock_repr POP = "<CommonStock object `POP`>"%string /\
  class_of POP = class_of (Stock_init CommonStock "pop" 1 2 None) /\
  symbol POP = symbol (Stock_init CommonStock "pop" 1 2 None).
Proof.
  split; [reflexivity|].
  apply (@Stock_repr_identifies POP (Stock_init CommonStock "pop" 1 2 None)).
  reflexivity.
Defined.

(** ** The value and the failure of the volume weighted price *)

Lemma vwp_value (ts : list Trade) :
  total_quantity ts <> 0%Z ->
  exists v, volume_weighted_price ts = Ok v /\
            (v == total_value ts / inject_Z (total_quantity ts))%Q.
Proof.
  intros Hq. unfold volume_weighted_price. eexists. split.
  - apply py_div_ok. now rewrite py_sum_quantity, inject_Z_zero_iff.
  - unfold total_value.
    rewrite (py_sum_Qsum (map (fun t => (price t * inject_Z (quantity t))%Q) ts)).
    now rewrite py_sum_quantity.
Qed.

Lemma vwp_raises (ts : list Trade) :
  total_quantity ts = 0%Z ->
  volume_weighted_price ts = Raise ZeroDivisionError.
Proof.
  intros Hq. unfold volume_weighted_price.
  apply py_div_zero. now rewrite py_sum_quantity, Hq.
Qed.

Lemma total_quantity_pos (ts : list Trade) :
  ts <> [] -> Forall (fun t => (0 < quantity t)%Z) ts ->
  (0 < total_quantity ts)%Z.
Proof.
  intros Hne Hall. destruct ts as [|t ts]; [contradiction|]. clear Hne.
  revert t Hall. induction ts as [|t' ts IH]; intros t Hall.
  - inversion Hall; subst. simpl. lia.
  - inversion Hall as [|? ? Ht Hrest]; subst.
    specialize (IH t' Hrest). simpl in *. lia.
Qed.

(* ------------------------------------------------------------------ *)
(** ** The queries under any clock *)

Lemma price_filter_run (ex : Exchange) (rd : nat -> Z) (sym_up : string)
    (d : Z) (l : list Trade) (k : nat) :
  filterM
    (fun trade =>
       if String.eqb (symbol (stock trade)) sym_up
       then now <- utcnow ;; ret (now - seconds d <=? timestamp trade)%Z
       else ret false)
    l (mkWorld ex (mkClock rd k))
  = (Ok (fst (price_selection rd k sym_up d l)),
     mkWorld ex (mkClock rd (snd (price_selection rd k sym_up d l)))).
Proof.
  revert k. induction l as [|t l IH]; intros k; [reflexivity|].
  cbn [filterM price_selection]. unfold bind at 1.
  destruct (String.eqb (symbol (stock t)) sym_up).
  - unfold bind at 1. cbn [utcnow clock readings reads exchange ret].
    unfold bind at 1. rewrite IH. cbn [ret fst snd].
    destruct (rd k - seconds d <=? timestamp t)%Z; reflexivity.
  - cbn [ret]. unfold bind at 1. rewrite IH. reflexivity.
Qed.

Lemma price_by_stock_run (ex : Exchange) (rd : nat -> Z) (k : nat)
    (sym : string) (d : Z) :
  let sel := price_selection rd k (upper sym) d (trades ex) in
  price_by_stock sym d (mkWorld ex (mkClock rd k)) =
    (match fst sel with
     | [] => Ok None
     | _ :: _ => rbind (volume_weighted_price (fst sel)) (fun p => Ok (Some p))
     end,
     mkWorld ex (mkClock rd (snd sel))).
Proof.
  intros sel. unfold price_by_stock.
  unfold bind at 1. cbn [get_trades exchange].
  unfold bind at 1. rewrite price_filter_run. fold sel.
  destruct (fst sel) as [|t ts]; [reflexivity|].
  unfold bind, lift, ret.
  destruct (volume_weighted_price (t :: ts)); reflexivity.
Qed.

Lemma index_filter_run (ex : Exchange) (rd : nat -> Z) (duration : option Z)
    (l : list Trade) (k : nat) :
  filterM (include duration) l (mkWorld ex (mkClock rd k))
  = (Ok (fst (index_selected rd k duration l)),
     mkWorld ex (mkClock rd (snd (index_selected rd k duration l)))).
Proof.
  unfold index_selected, include.
  destruct duration as [d|]; [destruct (d =? 0)%Z|].
  - induction l as [|t l IH]; [reflexivity|].
    cbn [filterM]. unfold bind at 1. cbn [ret].
    unfold bind at 1. rewrite IH. reflexivity.
  - revert k. induction l as [|t l IH]; intros k; [reflexivity|].
    cbn [filterM index_selection]. unfold bind at 1.
    unfold bind at 1. cbn [utcnow clock readings reads exchange ret].
    unfold bind at 1. rewrite IH. cbn [ret fst snd].
    destruct (rd k - seconds d <=? timestamp t)%Z; reflexivity.
  - induction l as [|t l IH]; [reflexivity|].
    cbn [filterM]. unfold bind at 1. cbn [ret].
    unfold bind at 1. rewrite IH. reflexivity.
Qed.

Lemma all_share_index_run (ex : Exchange) (rd : nat -> Z) (k : nat)
    (duration : option Z) :
  let sel := index_selected rd k duration (trades ex) in
  all_share_index duration (mkWorld ex (mkClock rd k)) =
    (index_of (fst sel), mkWorld ex (mkClock rd (snd sel))).
Proof.
  intros sel. unfold all_share_index.
  unfold bind at 1. cbn [get_trades exchange].
  unfold bind at 1. rewrite index_filter_run. fold sel.
  unfold index_of.
  destruct (sorted stock_symbol (fst sel)) as [|t ts]; [reflexivity|].
  cbv zeta. unfold bind, lift, ret.
  destruct (mapR _ _) as [prices|e]; [|reflexivity]. cbn [rbind].
  destruct (reduce_mul prices) as [product|e]; [|reflexivity]. cbn [rbind].
  destruct (py_div _ _) as [e'|e]; [|reflexivity]. cbn [rbind].
  destruct (float_pow _ _) as [v|e]; reflexivity.
Qed.

Lemma price_selection_own (rd : nat -> Z) (s : string) (d : Z)
    (l : list Trade) (k : nat) :
  price_selection rd k s d
    (filter (fun t => String.eqb (symbol (stock t)) s) l)
  = price_selection rd k s d l.
Proof.
  revert k. induction l as [|t l IH]; intros k; [reflexivity|].
  cbn [filter price_selection].
  destruct (String.eqb (symbol (stock t)) s) eqn:E.
  - cbn [price_selection]. rewrite E, IH. reflexivity.
  - apply IH.
Qed.

Lemma price_selection_reads (rd : nat -> Z) (s : string) (d : Z)
    (l : list Trade) (k : nat) :
  snd (price_selection rd k s d l) =
    (k + List.length (filter (fun t => String.eqb (symbol (stock t)) s) l))%nat.
Proof.
  revert k. induction l as [|t l IH]; intros k; cbn [filter price_selection].
  - simpl. lia.
  - destruct (String.eqb (symbol (stock t)) s).
    + cbn [snd]. rewrite IH. simpl. lia.
    + apply IH.
Qed.

Lemma index_selection_reads (rd : nat -> Z) (d : Z) (l : list Trade) (k : nat) :
  snd (index_selection rd k d l) = (k + List.length l)%nat.
Proof.
  revert k. induction l as [|t l IH]; intros k; cbn [index_selection].
  - simpl. lia.
  - cbn [snd]. rewrite IH. simpl. lia.
Qed.

Lemma price_selection_Forall (P : Trade -> Prop) (rd : nat -> Z) (s : string)
    (d : Z) (l : list Trade) (k : nat) :
  Forall P l -> Forall P (fst (price_selection rd k s d l)).
Proof.
  intros H. revert k. induction H as [|t l Ht Hl IH]; intros k;
    cbn [price_selection]; [constructor|].
  destruct (String.eqb (symbol (stock t)) s); [|apply IH].
  cbn [fst]. destruct (rd k - seconds d <=? timestamp t)%Z;
    [constructor; [exact Ht|]|]; apply IH.
Qed.

Lemma index_selected_Forall (P : Trade -> Prop) (rd : nat -> Z)
    (duration : option Z) (l : list Trade) (k : nat) :
  Forall P l -> Forall P (fst (index_selected rd k duration l)).
Proof.
  intros H. unfold index_selected.
  destruct duration as [d|]; [destruct (d =? 0)%Z|]; try exact H.
  revert k. induction H as [|t l Ht Hl IH]; intros k;
    cbn [index_selection]; [constructor|].
  cbn [fst]. destruct (rd k - seconds d <=? timestamp t)%Z;
    [constructor; [exact Ht|]|]; apply IH.
Qed.

(** X7. [price_by_stock] looks only at the trades whose stored symbol is
    the uppercased query symbol: with every other trade taken out of the
    ledger it gives the same answer and reads the clock as often.  The
    trades it looks at all have an uppercase stored symbol, so a trade
    stored under a symbol with a lowercase letter is found by no query. *)
Theorem price_by_stock_own_symbol_only (w : World) (sym : string) (d : Z) :
  let own := filter (fun t => String.eqb (symbol (stock t)) (upper sym))
               (trades (exchange w)) in
  let w' := mkWorld (mkExchange own) (clock w) in
  fst (price_by_stock sym d w') = fst (price_by_stock sym d w) /\
  clock (snd (price_by_stock sym d w')) = clock (snd (price_by_stock sym d w)) /\
  Forall (fun t => is_upper (symbol (stock t)) = true) own.
Proof.
  destruct w as [ex [rd k]]. cbv zeta. cbn [exchange clock].
  rewrite !price_by_stock_run. cbn [trades fst snd clock].
  rewrite price_selection_own.
  split; [reflexivity|]. split; [reflexivity|].
  apply Forall_forall. intros t Ht. apply filter_In in Ht.
  destruct Ht as [_ Ht]. apply String.eqb_eq in Ht. rewrite Ht.
  apply upper_is_upper.
Qed.

(** X8. How often the queries read the clock: [price_by_stock] once for
    every trade whose stored symbol is the uppercased query symbol;
    [all_share_index] once for every trade when the duration is a nonzero
    number, and never when it is zero or [None]. *)
Theorem query_clock_reads (w : World) :
  (forall sym d,
     let c' := clock (snd (price_by_stock sym d w)) in
     readings c' = readings (clock w) /\
     reads c' =
       (reads (clock w) +
        List.length (filter (fun t => String.eqb (symbol (stock t)) (upper sym))
                       (trades (exchange w))))%nat) /\
  (forall duration,
     let c' := clock (snd (all_share_index duration w)) in
     readings c' = readings (clock w) /\
     reads c' =
       (reads (clock w) +
        match duration with
        | Some d => if (d =? 0)%Z then 0 else List.length (trades (exchange w))
        | None => 0
        end)%nat).
Proof.
  destruct w as [ex [rd k]]. split.
  - intros sym d c'. unfold c'. rewrite price_by_stock_run.
    cbn [snd clock readings reads exchange].
    split; [reflexivity | apply price_selection_reads].
  - intros duration c'. unfold c'. rewrite all_share_index_run.
    cbn [snd clock readings reads exchange].
    split; [reflexivity|]. unfold index_selected.
    destruct duration as [d|]; [destruct (d =? 0)%Z|]; cbn [snd]; try lia.
    apply index_selection_reads.
Qed.

(** X9. A new exchange has no data: both queries return [None] for every
    argument and every clock, and leave the whole state, clock included, as
    it was. *)
Theorem fresh_exchange_no_data (c : Clock) :
  (forall sym d,
     price_by_stock sym d (mkWorld Exchange_init c)
       = (Ok None, mkWorld Exchange_init c)) /\
  (forall duration,
     all_share_index duration (mkWorld Exchange_init c)
       = (Ok None, mkWorld Exchange_init c)).
Proof.
  destruct c as [rd k]. split.
  - intros sym d. rewrite price_by_stock_run. reflexivity.
  - intros duration. rewrite all_share_index_run.
    unfold index_selected.
    destruct duration as [d|]; [destruct (d =? 0)%Z|]; reflexivity.
Qed.

(* ------------------------------------------------------------------ *)
(** ** Placing a trade *)

Lemma place_trade_run(ex : Exchange) (rd : nat -> Z) (k : nat)
    (s : Stock) (qty : Z) (a : TradeType) (p : Q) :
  place_trade s qty a p (mkWorld ex (mkClock rd k)) =
    (Ok tt,
     mkWorld (mkExchange (trades ex ++ [mkTrade s qty a p (rd k)]))
             (mkClock rd (S k))).
Proof. reflexivity. Qed.

Lemma filter_none {A : Type} (f : A -> bool) (l : list A) :
  Forall (fun x => f x = false) l -> filter f l = [].
Proof.
  intros H. apply filter_nil_iff. now apply Forall_forall.
Qed.

(* ------------------------------------------------------------------ *)
(** ** Timestamps follow the order of recording *)

Lemma stamped_in_order_weaken (b b' : Z) (l : list Trade) :
  (b <= b')%Z -> stamped_in_order b l -> stamped_in_order b' l.
Proof.
  intros Hb. induction l as [|t l IH]; simpl; [trivial|].
  intros [Ht [Hall Hl]]. split; [lia|]. split; [exact Hall | now apply IH].
Qed.

Lemma stamped_in_order_snoc (b : Z) (l : list Trade) (t : Trade) :
  timestamp t = b -> stamped_in_order b l -> stamped_in_order b (l ++ [t]).
Proof.
  intros Ht. induction l as [|t0 l IH]; simpl.
  - intros _. split; [lia|]. split; [constructor | exact I].
  - intros [H0 [Hall Hl]]. split; [exact H0|]. split; [|now apply IH].
    apply Forall_app. split; [exact Hall|].
    constructor; [lia | constructor].
Qed.

Lemma stamped_in_order_sorted (b : Z) (l : list Trade) :
  stamped_in_order b l ->
  StronglySorted (fun t t' => (timestamp t <= timestamp t')%Z) l.
Proof.
  induction l as [|t l IH]; simpl; [constructor|].
  intros [_ [Hall Hl]]. constructor; [now apply IH | exact Hall].
Qed.

Lemma run_call_in_step (c : Call) (w : World) :
  monotone (clock w) -> in_step w ->
  monotone (clock (run_call c w)) /\ in_step (run_call c w).
Proof.
  destruct w as [ex [rd k]]. unfold monotone, in_step.
  cbn [clock exchange readings reads]. intros Hm Hw.
  destruct c as [s qty a p|sym d|duration]; cbn [run_call].
  - rewrite place_trade_run. cbn [snd clock exchange readings reads trades].
    split; [exact Hm|].
    apply stamped_in_order_weaken with (b := rd k); [apply Hm; lia|].
    now apply stamped_in_order_snoc.
  - rewrite price_by_stock_run. cbn [snd clock exchange readings reads].
    split; [exact Hm|].
    eapply stamped_in_order_weaken; [|exact Hw].
    apply Hm. rewrite price_selection_reads. lia.
  - rewrite all_share_index_run. cbn [snd clock exchange readings reads].
    split; [exact Hm|].
    eapply stamped_in_order_weaken; [|exact Hw].
    apply Hm. unfold index_selected.
    destruct duration as [d|]; [destruct (d =? 0)%Z|]; cbn [snd]; try lia.
    rewrite index_selection_reads. lia.
Qed.

Lemma run_calls_in_step (cs : list Call) (w : World) :
  monotone (clock w) -> in_step w -> in_step (run_calls cs w).
Proof.
  revert w. induction cs as [|c cs IH]; intros w Hm Hw; [exact Hw|].
  destruct (@run_call_in_step c w Hm Hw) as [Hm' Hw'].
  exact (IH _ Hm' Hw').
Qed.

(** X12. When the readings of the clock never go back and every trade is
    built at the moment it is recorded, the ledger of an exchange that
    started empty is in timestamp order after any sequence of placements and
    queries. *)
Theorem ledger_in_timestamp_order (c : Clock) (cs : list Call) :
  monotone c ->
  StronglySorted (fun t t' => (timestamp t <= timestamp t')%Z)
    (trades (exchange (run_calls cs (mkWorld Exchange_init c)))).
Proof.
  intros Hm. eapply stamped_in_order_sorted.
  apply (@run_calls_in_step cs (mkWorld Exchange_init c)); [exact Hm|].
  exact I.
Qed.

Lemma ledger_in_timestamp_order_witness :
  StronglySorted (fun t t' => (timestamp t <= timestamp t')%Z)
    (trades (exchange
       (run_calls [CallPlace TEA 42 buy 32; CallPrice "TEA" 300;
                   CallPlace POP 420 buy 8; CallIndex (Some 300%Z);
                   CallPlace POP 420 buy 16]
          (mkWorld Exchange_init (mkClock (fun k => Z.of_nat k) 0))))).
Proof.
  apply ledger_in_timestamp_order.
  intros i j H. cbn [readings]. lia.
Defined.

(* ------------------------------------------------------------------ *)
(** ** The index for all time, and for one symbol *)

(** X13. With the duration [None] or zero the index is taken over the
    whole ledger and the clock plays no part: both give the same result
    whatever the clocks show, and the state is left as it was. *)
Theorem all_time_index_clock_free (ex : Exchange) (c c' : Clock) :
  fst (all_share_index None (mkWorld ex c))
    = fst (all_share_index None (mkWorld ex c')) /\
  fst (all_share_index (Some 0%Z) (mkWorld ex c))
    = fst (all_share_index None (mkWorld ex c')) /\
  snd (all_share_index None (mkWorld ex c)) = mkWorld ex c /\
  snd (all_share_index (Some 0%Z) (mkWorld ex c)) = mkWorld ex c.
Proof.
  destruct c as [rd k], c' as [rd' k'].
  rewrite !all_share_index_run. repeat split.
Qed.

Lemma index_selection_all (rd : nat -> Z) (d : Z) (l : list Trade) (k : nat) :
  (forall t j, In t l -> (rd j - seconds d <= timestamp t)%Z) ->
  fst (index_selection rd k d l) = l.
Proof.
  revert k. induction l as [|t l IH]; intros k H; [reflexivity|].
  cbn [index_selection fst].
  assert (E : (rd k - seconds d <=? timestamp t)%Z = true).
  { apply Z.leb_le, H. now left. }
  rewrite E. f_equal. apply IH. intros t' j Ht'. apply H. now right.
Qed.

(** X14. When every trade of the ledger is inside the window at every
    reading of the clock, the index over the window is the index for all
    time. *)
Theorem index_window_covering_all (w : World) (d : Z) :
  (forall t j, In t (trades (exchange w)) ->
               (readings (clock w) j - seconds d <= timestamp t)%Z) ->
  fst (all_share_index (Some d) w) = fst (all_share_index None w).
Proof.
  destruct w as [ex [rd k]]. cbn [exchange clock readings]. intros H.
  rewrite !all_share_index_run. cbn [fst]. unfold index_selected.
  destruct (d =? 0)%Z; [reflexivity|].
  now rewrite index_selection_all.
Qed.

Lemma index_window_covering_all_witness :
  fst (all_share_index (Some 300%Z) acceptance_world)
    = fst (all_share_index None acceptance_world).
Proof.
  apply index_window_covering_all.
  intros t j Ht. cbn [readings clock acceptance_world] in *.
  change (trades (exchange acceptance_world)) with acceptance_trades in Ht.
  repeat (destruct Ht as [<-|Ht]; [discriminate|]). destruct Ht.
Defined.

Lemma Q2R_one : Q2R 1 = 1%R.
Proof. unfold Q2R. simpl. lra. Qed.

Lemma Q2R_zero : Q2R 0 = 0%R.
Proof. unfold Q2R. simpl. lra. Qed.

(** The power with exponent one is the base, of any sign. *)
Lemma float_pow_one (x e : Q) :
  (e == 1)%Q -> float_pow x e = Ok (PyFloat (Q2R x)).
Proof.
  intros He. rewrite (float_pow_proper (Qeq_refl x) He).
  unfold float_pow. destruct (x ?= 0)%Q eqn:C.
  - apply Qeq_alt in C. cbn. f_equal. f_equal.
    rewrite (Qeq_eqR _ _ C). symmetry. apply Q2R_zero.
  - cbn. f_equal. f_equal. simpl. ring.
  - apply Qgt_alt in C. rewrite Q2R_one. f_equal. f_equal.
    apply Rpower_1. rewrite <- Q2R_zero. now apply Qlt_Rlt.
Qed.

Lemma with_key_all {A : Type} (key : A -> string) (k : string) (l : list A) :
  Forall (fun x => key x = k) l -> with_key key k l = l.
Proof.
  unfold with_key. induction 1 as [|x l Hx Hl IH]; simpl; [reflexivity|].
  apply String.eqb_eq in Hx. now rewrite Hx, IH.
Qed.

Lemma NoDup_single {A : Type} (a : A) (l : list A) :
  NoDup l -> l <> [] -> (forall x, In x l -> x = a) -> l = [a].
Proof.
  intros Hnd Hne Hall. destruct l as [|x l]; [contradiction|].
  assert (x = a) by (apply Hall; now left). subst x.
  destruct l as [|y l]; [reflexivity|]. exfalso.
  assert (y = a) by (apply Hall; right; now left). subst y.
  inversion Hnd as [|? ? Hnot _]; subst. apply Hnot. now left.
Qed.

Lemma index_of_single_symbol (s : string) (sel : list Trade) :
  Forall (fun t => stock_symbol t = s) sel ->
  index_of sel =
    match sel with
    | [] => Ok None
    | _ :: _ =>
        rbind (volume_weighted_price sel)
          (fun v => Ok (Some (PyFloat (Q2R v))))
    end.
Proof.
  intros Hall. destruct sel as [|t0 sel0] eqn:Es; [reflexivity|].
  rewrite <- Es in *.
  assert (Hne : sel <> []) by (rewrite Es; discriminate).
  destruct (index_of_groups Hne) as [Hks Hidx]. rewrite Hidx.
  destruct (groupby_sorted stock_symbol sel) as [_ [Hnd Hin]].
  rewrite (@NoDup_single _ s _ Hnd Hks).
  2:{ intros k Hk. apply Hin in Hk. destruct Hk as [t [Ht Hk]].
      rewrite Forall_forall in Hall. rewrite <- Hk. now apply Hall. }
  cbn [mapR]. unfold symbol_group. rewrite (with_key_all _ Hall).
  destruct (volume_weighted_price sel) as [v|e]; [|reflexivity].
  cbn [rbind]. unfold geometric_mean. cbn [Qprod List.length].
  rewrite (@float_pow_proper _ v _ 1%Q); [|ring|reflexivity].
  now rewrite float_pow_one.
Qed.

Lemma price_selection_all (rd : nat -> Z) (s : string) (d : Z)
    (l : list Trade) (k : nat) :
  Forall (fun t => symbol (stock t) = s) l ->
  price_selection rd k s d l = index_selection rd k d l.
Proof.
  intros H. revert k. induction H as [|t l Ht Hl IH]; intros k;
    [reflexivity|].
  cbn [price_selection index_selection].
  apply String.eqb_eq in Ht. now rewrite Ht, IH.
Qed.

(** X15. On a ledger where every trade is on one symbol, the index over a
    window is the volume weighted price of that symbol over the window, as
    a float of any sign: [all_share_index] and [price_by_stock] agree, in
    the value, in [None] and in the failure. *)
Theorem index_of_one_symbol (w : World) (sym : string) (d : Z) :
  d <> 0%Z ->
  Forall (fun t => symbol (stock t) = upper sym) (trades (exchange w)) ->
  fst (all_share_index (Some d) w) =
    match fst (price_by_stock sym d w) with
    | Ok None => Ok None
    | Ok (Some v) => Ok (Some (PyFloat (Q2R v)))
    | Raise e => Raise e
    end.
Proof.
  destruct w as [ex [rd k]]. cbn [exchange]. intros Hd Hall.
  rewrite all_share_index_run, price_by_stock_run. cbn [fst].
  unfold index_selected. apply Z.eqb_neq in Hd. rewrite Hd.
  rewrite (price_selection_all rd d k Hall).
  pose proof (index_selected_Forall rd (Some d) k Hall) as Hsel.
  unfold index_selected in Hsel. rewrite Hd in Hsel.
  rewrite (@index_of_single_symbol (upper sym) _ Hsel).
  destruct (fst (index_selection rd k d (trades ex))) as [|t ts];
    [reflexivity|].
  destruct (volume_weighted_price (t :: ts)); reflexivity.
Qed.

Lemma index_of_one_symbol_witness :
  fst (all_share_index (Some 300%Z)
         (mkWorld (mkExchange [mkTrade POP 420 buy 8 0; mkTrade POP 420 buy 16 0])
                  (mkClock (fun _ => 5%Z) 0))) =
    match fst (price_by_stock "pop" 300
                 (mkWorld
                    (mkExchange [mkTrade POP 420 buy 8 0; mkTrade POP 420 buy 16 0])
                    (mkClock (fun _ => 5%Z) 0))) with
    | Ok None => Ok None
    | Ok (Some v) => Ok (Some (PyFloat (Q2R v)))
    | Raise e => Raise e
    end.
Proof.
  apply index_of_one_symbol.
  - discriminate.
  - repeat constructor.
Defined.

(* ------------------------------------------------------------------ *)
(** ** Lists of fallible results *)

Lemma mapR_Forall_ok {A B : Type} (P : B -> Prop) (f : A -> result B)
    (l : list A) :
  (forall x, In x l -> exists y, f x = Ok y /\ P y) ->
  exists ys, mapR f l = Ok ys /\ Forall P ys /\
             List.length ys = List.length l.
Proof.
  induction l as [|x l IH]; intros H.
  - exists []. repeat split. constructor.
  - destruct (H x (or_introl eq_refl)) as [y [Ey Py]].
    destruct IH as [ys [Eys [Pys Hlen]]].
    { intros x' Hx'. apply H. now right. }
    exists (y :: ys). cbn [mapR]. rewrite Ey, Eys. cbn [rbind].
    repeat split; [now constructor | simpl; now rewrite Hlen].
Qed.

(* ------------------------------------------------------------------ *)
(** ** Exceptions of the volume weighted price *)

Lemma vwp_raise_only (ts : list Trade) (e : exn) :
  volume_weighted_price ts = Raise e -> e = ZeroDivisionError.
Proof.
  unfold volume_weighted_price.
  match goal with
  | |- context [py_div ?a ?b] => destruct (py_div_cases a b) as [[_ E]|[_ E]]
  end; rewrite E; congruence.
Qed.

(* ------------------------------------------------------------------ *)
(** ** The direction of a trade has no effect *)

Section KeyPreserving.

Variable A : Type.
Variable key : A -> string.
Variable h : A -> A.
Hypothesis key_h : forall x, key (h x) = key x.

Lemma insert_sorted_map (x : A) (l : list A) :
  insert_sorted key (h x) (map h l) = map h (insert_sorted key x l).
Proof.
  induction l as [|y l IH]; [reflexivity|].
  cbn [map insert_sorted]. rewrite !key_h.
  destruct (String.leb (key x) (key y)); [reflexivity|].
  cbn [map]. now rewrite IH.
Qed.

Lemma sorted_map (l : list A) :
  sorted key (map h l) = map h (sorted key l).
Proof.
  induction l as [|x l IH]; [reflexivity|].
  cbn [map sorted]. now rewrite IH, insert_sorted_map.
Qed.

Lemma groupby_map (l : list A) :
  groupby key (map h l) =
    map (fun g => (fst g, map h (snd g))) (groupby key l).
Proof.
  induction l as [|x l IH]; [reflexivity|].
  cbn [map groupby]. rewrite IH, key_h.
  destruct (groupby key l) as [|[k g] rest]; [reflexivity|].
  cbn [map fst snd]. destruct (String.eqb (key x) k); reflexivity.
Qed.

End KeyPreserving.

Lemma mapR_ext {A B : Type} (f f' : A -> result B) (l : list A) :
  (forall x, f x = f' x) -> mapR f l = mapR f' l.
Proof.
  intros H. induction l as [|x l IH]; [reflexivity|].
  cbn [mapR]. now rewrite H, IH.
Qed.

Lemma vwp_set_action (f : TradeType -> TradeType) (ts : list Trade) :
  volume_weighted_price (map (set_action f) ts) = volume_weighted_price ts.
Proof.
  unfold volume_weighted_price. now rewrite !map_map.
Qed.

Lemma index_of_set_action (f : TradeType -> TradeType) (ts : list Trade) :
  index_of (map (set_action f) ts) = index_of ts.
Proof.
  unfold index_of.
  rewrite (@sorted_map _ stock_symbol (set_action f)) by reflexivity.
  destruct (sorted stock_symbol ts) as [|t l]; [reflexivity|].
  cbn [map].
  change (set_action f t :: map (set_action f) l)
    with (map (set_action f) (t :: l)).
  rewrite (@groupby_map _ stock_symbol (set_action f)) by reflexivity.
  rewrite mapR_map. cbn [snd].
  rewrite (mapR_ext _ (fun g => volume_weighted_price (snd g)));
    [reflexivity|].
  intros g. apply vwp_set_action.
Qed.

Lemma price_selection_set_action (f : TradeType -> TradeType) (rd : nat -> Z)
    (s : string) (d : Z) (l : list Trade) (k : nat) :
  price_selection rd k s d (map (set_action f) l) =
    (map (set_action f) (fst (price_selection rd k s d l)),
     snd (price_selection rd k s d l)).
Proof.
  revert k. induction l as [|t l IH]; intros k; [reflexivity|].
  cbn [map price_selection set_action stock symbol timestamp].
  destruct (String.eqb (symbol (stock t)) s); [|apply IH].
  rewrite IH. cbn [fst snd].
  destruct (rd k - seconds d <=? timestamp t)%Z; reflexivity.
Qed.

Lemma index_selected_set_action (f : TradeType -> TradeType) (rd : nat -> Z)
    (duration : option Z) (l : list Trade) (k : nat) :
  index_selected rd k duration (map (set_action f) l) =
    (map (set_action f) (fst (index_selected rd k duration l)),
     snd (index_selected rd k duration l)).
Proof.
  unfold index_selected.
  destruct duration as [d|]; [destruct (d =? 0)%Z|]; try reflexivity.
  revert k. induction l as [|t l IH]; intros k; [reflexivity|].
  cbn [map index_selection set_action timestamp].
  rewrite IH. cbn [fst snd].
  destruct (rd k - seconds d <=? timestamp t)%Z; reflexivity.
Qed.

(** X18. Whether a trade is a buy or a sell has no effect on the
    statistics: with the directions of the recorded trades changed in any
    way, [price_by_stock] and [all_share_index] give the same results. *)
Theorem direction_has_no_effect (f : TradeType -> TradeType) (w : World) :
  let w' := mkWorld (mkExchange (map (set_action f) (trades (exchange w))))
                    (clock w) in
  (forall sym d,
     fst (price_by_stock sym d w') = fst (price_by_stock sym d w)) /\
  (forall duration,
     fst (all_share_index duration w') = fst (all_share_index duration w)).
Proof.
  destruct w as [ex [rd k]]. cbv zeta. cbn [exchange clock]. split.
  - intros sym d. rewrite !price_by_stock_run. cbn [fst trades].
    rewrite price_selection_set_action. cbn [fst].
    destruct (fst (price_selection rd k (upper sym) d (trades ex)))
      as [|t ts]; [reflexivity|].
    cbn [map].
    change (set_action f t :: map (set_action f) ts)
      with (map (set_action f) (t :: ts)).
    now rewrite vwp_set_action.
  - intros duration. rewrite !all_share_index_run. cbn [fst trades].
    rewrite index_selected_set_action. cbn [fst].
    apply index_of_set_action.
Qed.

(* ------------------------------------------------------------------ *)
(** ** The window, reading by reading *)

Lemma window_from_cons (rd : nat -> Z) (k : nat) (d : Z) (t : Trade)
    (l : list Trade) :
  window_from rd k d (t :: l) =
    if (rd k - seconds d <=? timestamp t)%Z
    then t :: window_from rd (S k) d l
    else window_from rd (S k) d l.
Proof.
  unfold window_from. cbn [List.length seq combine filter fst snd].
  destruct (rd k - seconds d <=? timestamp t)%Z; reflexivity.
Qed.

Lemma price_selection_window (rd : nat -> Z) (s : string) (d : Z)
    (l : list Trade) (k : nat) :
  fst (price_selection rd k s d l) =
    window_from rd k d (filter (fun t => String.eqb (symbol (stock t)) s) l).
Proof.
  revert k. induction l as [|t l IH]; intros k; [reflexivity|].
  cbn [price_selection filter].
  destruct (String.eqb (symbol (stock t)) s); [|apply IH].
  cbn [fst]. rewrite window_from_cons, IH. reflexivity.
Qed.

Lemma index_selection_window (rd : nat -> Z) (d : Z) (l : list Trade)
    (k : nat) :
  fst (index_selection rd k d l) = window_from rd k d l.
Proof.
  revert k. induction l as [|t l IH]; intros k; [reflexivity|].
  cbn [index_selection fst]. rewrite window_from_cons, IH. reflexivity.
Qed.

Lemma index_selected_window (rd : nat -> Z) (duration : option Z)
    (l : list Trade) (k : nat) :
  fst (index_selected rd k duration l) = index_window rd k duration l.
Proof.
  unfold index_selected, index_window.
  destruct duration as [d|]; [destruct (d =? 0)%Z|]; try reflexivity.
  apply index_selection_window.
Qed.

Lemma window_from_frozen (rd : nat -> Z) (now : Z) (d : Z) (l : list Trade)
    (k : nat) :
  (forall j, rd j = now) ->
  window_from rd k d l = filter (in_window now d) l.
Proof.
  intros H. revert k. induction l as [|t l IH]; intros k; [reflexivity|].
  rewrite window_from_cons, IH, H. reflexivity.
Qed.

Lemma filter_matches (sym : string) (d now : Z) (l : list Trade) :
  filter (in_window now d)
    (filter (fun t => String.eqb (symbol (stock t)) (upper sym)) l)
  = filter (matches sym d now) l.
Proof.
  unfold matches, stock_symbol. induction l as [|t l IH]; [reflexivity|].
  cbn [filter]. destruct (String.eqb (symbol (stock t)) (upper sym));
    cbn [filter andb]; now rewrite IH.
Qed.

(** C1, as the code has it. [price_by_stock] reads the clock once for each
    recorded trade whose stock symbol equals the uppercased query symbol, in
    ledger order, and selects such a trade when its timestamp is [>=] that
    reading [- duration] seconds.  It returns [None] when no trade is
    selected and otherwise what [volume_weighted_price] gives on exactly the
    selected trades.  Query symbols with the same uppercase form give the
    same answer.  When the clock shows one instant [now] at every reading,
    the selected trades are the recorded trades with a matching symbol and a
    timestamp [>= now - duration] seconds. *)
Theorem price_by_stock_per_reading (w : World) (sym : string) (duration : Z) :
  let own := filter (fun t => String.eqb (symbol (stock t)) (upper sym))
               (trades (exchange w)) in
  let sel := window_from (readings (clock w)) (reads (clock w)) duration own in
  fst (price_by_stock sym duration w) =
    match sel with
    | [] => Ok None
    | _ :: _ => rbind (volume_weighted_price sel) (fun p => Ok (Some p))
    end /\
  (forall sym', upper sym' = upper sym ->
     fst (price_by_stock sym' duration w) = fst (price_by_stock sym duration w)) /\
  (forall now, frozen (clock w) now ->
     sel = filter (matches sym duration now) (trades (exchange w))).
Proof.
  destruct w as [ex [rd k]]. cbv zeta. cbn [exchange clock readings reads].
  split; [|split].
  - rewrite price_by_stock_run. cbn [fst].
    now rewrite price_selection_window.
  - intros sym' Hs. unfold price_by_stock. now rewrite Hs.
  - intros now Hnow. unfold frozen in Hnow. cbn [readings] in Hnow.
    rewrite (window_from_frozen _ duration _ k Hnow).
    apply filter_matches.
Qed.

Lemma moving_filter (now : Z) :
  filter (matches "POP" 10 now) (trades (exchange moving_world)) =
    if (now - seconds 10 <=? 0)%Z
    then trades (exchange moving_world)
    else [].
Proof.
  unfold matches, in_window. simpl.
  match goal with
  | |- context [(?a <=? ?b)%Z] => destruct (a <=? b)%Z
  end; reflexivity.
Qed.

(** With the clock one microsecond further at the second reading, the first
    of two trades stamped alike is inside the window and the second is not:
    the price is 8, while every single instant [now] takes both trades, for
    the price 12, or none. *)
Lemma price_by_stock_no_single_now :
  ~ exists now : Z,
      fst (price_by_stock "POP" 10 moving_world) =
        match filter (matches "POP" 10 now) (trades (exchange moving_world)) with
        | [] => Ok None
        | (_ :: _) as sel =>
            rbind (volume_weighted_price sel) (fun p => Ok (Some p))
        end.
Proof.
  intros [now H]. rewrite moving_filter in H.
  destruct (now - seconds 10 <=? 0)%Z; discriminate H.
Qed.

(* ------------------------------------------------------------------ *)
(** ** The groups of the index, in the order of their symbols *)

Section GroupKeysOrder.

Variable A : Type.
Variable key : A -> string.

Lemma group_keys_cons (x : A) (l : list A) :
  group_keys key (x :: l) = group_keys key l \/
  group_keys key (x :: l) = key x :: group_keys key l.
Proof.
  unfold group_keys. simpl.
  destruct (groupby key l) as [|[k g] rest]; [now right|].
  destruct (String.eqb (key x) k); [now left | now right].
Qed.

(** The keys of the groups of a sorted list come in ascending order. *)
Lemma group_keys_sorted (l : list A) :
  StronglySorted (key_le key) l ->
  StronglySorted (fun a b => String.leb a b = true) (group_keys key l).
Proof.
  induction 1 as [|x l Hs IH Hall]; [constructor|].
  destruct (group_keys_cons x l) as [E|E]; rewrite E; [exact IH|].
  constructor; [exact IH|].
  apply Forall_forall. intros k Hk. apply In_group_keys in Hk.
  destruct Hk as [z [Hz <-]]. rewrite Forall_forall in Hall.
  now apply Hall.
Qed.

End GroupKeysOrder.

(** The index of a non-empty selection, written with the groups: the
    volume weighted prices of the groups, in the order of their symbols,
    multiplied from the left, to the power one over their number. *)
Lemma index_of_formula (sel : list Trade) :
  sel <> [] ->
  index_of sel =
    rbind (mapR (fun k => volume_weighted_price (symbol_group k sel))
             (group_keys stock_symbol (sorted stock_symbol sel)))
      (fun prices =>
         rbind (reduce_mul prices)
           (fun product =>
              rbind (float_pow product
                       (1 / inject_Z (Z.of_nat (List.length prices))))
                (fun v => Ok (Some v)))).
Proof.
  intros Hne.
  destruct (groupby_sorted stock_symbol sel) as [Hg _].
  unfold index_of.
  destruct (sorted stock_symbol sel) as [|t ts] eqn:Es.
  { apply sorted_nil_iff in Es. contradiction. }
  rewrite Hg, mapR_map. cbn [snd]. unfold symbol_group.
  destruct (mapR _ _) as [prices|e]; [|reflexivity].
  cbn [rbind].
  destruct prices as [|x xs]; [reflexivity|].
  cbn [reduce_mul rbind].
  rewrite py_div_ok by (rewrite inject_Z_zero_iff; simpl List.length; lia).
  reflexivity.
Qed.

Lemma filter_true {A : Type} (l : list A) : filter (fun _ => true) l = l.
Proof. induction l as [|x l IH]; simpl; [reflexivity | now rewrite IH]. Qed.

Lemma index_window_frozen (rd : nat -> Z) (now : Z) (duration : option Z)
    (l : list Trade) (k : nat) :
  (forall j, rd j = now) ->
  index_window rd k duration l = filter (included duration now) l.
Proof.
  intros H. unfold index_window, included.
  destruct duration as [d|]; [destruct (d =? 0)%Z|].
  - symmetry. apply filter_true.
  - now apply window_from_frozen.
  - symmetry. apply filter_true.
Qed.

(** C2, as the code has it.  With the duration [None] or zero
    [all_share_index] takes every recorded trade in; with any other duration
    it reads the clock once for each recorded trade, in ledger order, and
    takes the trade in when its timestamp is [>=] that reading [- duration]
    seconds.  With no trade taken in it returns [None].  Otherwise there is
    one group for each stock symbol among the trades taken in, the groups
    come in the order of their symbols, each holds the trades on its symbol
    in ledger order, and the result is (Π price_i)^(1/n): the product, from
    the left, of the volume weighted prices of the [n] groups, to the power
    [1/n].  When the clock shows one instant [now] at every reading, the
    trades taken in are those with a timestamp [>= now - duration]
    seconds. *)
Theorem all_share_index_per_reading (w : World) (duration : option Z) :
  let inc :=
    match duration with
    | Some d =>
        if (d =? 0)%Z then trades (exchange w)
        else window_from (readings (clock w)) (reads (clock w)) d
               (trades (exchange w))
    | None => trades (exchange w)
    end in
  match inc with
  | [] => fst (all_share_index duration w) = Ok None
  | _ :: _ =>
      exists ks : list string,
        NoDup ks /\
        StronglySorted (fun a b => String.leb a b = true) ks /\
        (forall k, In k ks <-> exists t, In t inc /\ symbol (stock t) = k) /\
        fst (all_share_index duration w) =
          rbind (mapR (fun k => volume_weighted_price (symbol_group k inc)) ks)
            (fun prices =>
               rbind (reduce_mul prices)
                 (fun product =>
                    rbind (float_pow product
                             (1 / inject_Z (Z.of_nat (List.length prices))))
                      (fun v => Ok (Some v))))
  end /\
  (forall now, frozen (clock w) now ->
     inc = filter (included duration now) (trades (exchange w))).
Proof.
  destruct w as [ex [rd k]]. cbv zeta. cbn [exchange clock readings reads].
  change (match duration with
          | Some d => if (d =? 0)%Z then trades ex
                      else window_from rd k d (trades ex)
          | None => trades ex
          end) with (index_window rd k duration (trades ex)).
  split.
  - rewrite all_share_index_run. cbn [fst].
    rewrite index_selected_window.
    destruct (index_window rd k duration (trades ex)) as [|t0 inc0] eqn:Ei;
      [reflexivity|].
    rewrite <- Ei.
    assert (Hne : index_window rd k duration (trades ex) <> [])
      by (rewrite Ei; discriminate).
    destruct (groupby_sorted stock_symbol
                (index_window rd k duration (trades ex))) as [_ [Hnd Hin]].
    exists (group_keys stock_symbol
              (sorted stock_symbol (index_window rd k duration (trades ex)))).
    split; [exact Hnd|]. split.
    { apply group_keys_sorted, sorted_StronglySorted. }
    split; [exact Hin|].
    now apply index_of_formula.
  - intros now Hnow. unfold frozen in Hnow. cbn [readings] in Hnow.
    now apply index_window_frozen.
Qed.

Lemma moving_included (now : Z) :
  filter (included (Some 10%Z) now) (trades (exchange moving_world)) =
    if (now - seconds 10 <=? 0)%Z
    then trades (exchange moving_world)
    else [].
Proof.
  unfold included, in_window. simpl.
  match goal with
  | |- context [(?a <=? ?b)%Z] => destruct (a <=? b)%Z
  end; reflexivity.
Qed.

(** The same ledger and clock: the index over a window of ten seconds is
    taken over the first trade only, and is 8; for every single instant
    [now] the trades inside the window are both, for the index 12, or
    none. *)
Lemma all_share_index_no_single_now :
  ~ exists now : Z,
      fst (all_share_index (Some 10%Z) moving_world) =
        index_of (filter (included (Some 10%Z) now)
                    (trades (exchange moving_world))).
Proof.
  intros [now H]. unfold moving_world in H at 1.
  rewrite all_share_index_run in H. cbn [fst] in H.
  replace (fst (index_selected _ _ _ _))
    with [mkTrade POP 1 buy 8 0] in H by reflexivity.
  rewrite (@index_of_single_symbol "POP") in H by (repeat constructor).
  replace (volume_weighted_price [mkTrade POP 1 buy 8 0])
    with (@Ok Q (8 # 1)) in H by reflexivity.
  cbn [rbind] in H. rewrite moving_included in H.
  destruct (now - seconds 10 <=? 0)%Z.
  - rewrite (@index_of_single_symbol "POP") in H by (repeat constructor).
    replace (volume_weighted_price (trades (exchange moving_world)))
      with (@Ok Q (24 # 2)) in H by reflexivity.
    cbn [trades exchange moving_world rbind] in H.
    injection H as H. unfold Q2R in H. simpl in H. lra.
  - discriminate H.
Qed.

(** C4. [all_share_index] groups by the stock symbol as stored, without
    changing its case: when two of the trades it takes in have stored
    symbols that differ in any way, be it only in letter case, each of the
    two symbols has a group of its own among the groups the result is
    computed from, the first trade is in the group of its symbol and not in
    that of the other, and so is the second. *)
Theorem all_share_index_groups_by_stored_symbol (w : World)
    (duration : option Z) (t1 t2 : Trade) :
  let inc :=
    match duration with
    | Some d =>
        if (d =? 0)%Z then trades (exchange w)
        else window_from (readings (clock w)) (reads (clock w)) d
               (trades (exchange w))
    | None => trades (exchange w)
    end in
  In t1 inc -> In t2 inc ->
  symbol (stock t1) <> symbol (stock t2) ->
  exists ks : list string,
    NoDup ks /\
    In (symbol (stock t1)) ks /\ In (symbol (stock t2)) ks /\
    (forall k, In k ks <-> exists t, In t inc /\ symbol (stock t) = k) /\
    fst (all_share_index duration w) =
      rbind (mapR (fun k => volume_weighted_price (symbol_group k inc)) ks)
        (fun prices =>
           rbind (reduce_mul prices)
             (fun product =>
                rbind (float_pow product
                         (1 / inject_Z (Z.of_nat (List.length prices))))
                  (fun v => Ok (Some v)))) /\
    In t1 (symbol_group (symbol (stock t1)) inc) /\
    ~ In t2 (symbol_group (symbol (stock t1)) inc) /\
    In t2 (symbol_group (symbol (stock t2)) inc) /\
    ~ In t1 (symbol_group (symbol (stock t2)) inc).
Proof.
  destruct w as [ex [rd k]]. cbv zeta. cbn [exchange clock readings reads].
  change (match duration with
          | Some d => if (d =? 0)%Z then trades ex
                      else window_from rd k d (trades ex)
          | None => trades ex
          end) with (index_window rd k duration (trades ex)).
  set (inc := index_window rd k duration (trades ex)).
  intros H1 H2 Hneq.
  assert (Hne : inc <> []) by (intros E; rewrite E in H1; destruct H1).
  destruct (groupby_sorted stock_symbol inc) as [_ [Hnd Hin]].
  destruct (@index_groups_case_sensitive inc t1 t2 H1 H2 Hneq)
    as [_ [_ [M1 [M2 [N1 [N2 _]]]]]].
  exists (group_keys stock_symbol (sorted stock_symbol inc)).
  split; [exact Hnd|].
  split; [apply Hin; now exists t1|].
  split; [apply Hin; now exists t2|].
  split; [exact Hin|].
  split.
  { rewrite all_share_index_run. cbn [fst].
    rewrite index_selected_window. fold inc. now apply index_of_formula. }
  repeat split; assumption.
Qed.

Lemma all_share_index_groups_by_stored_symbol_witness :
  upper (symbol tea_lower) = upper (symbol TEA) /\
  exists ks : list string,
    In "TEA"%string ks /\ In "tea"%string ks /\
    fst (all_share_index None case_world) =
      rbind (mapR (fun k => volume_weighted_price (symbol_group k case_trades))
               ks)
        (fun prices =>
           rbind (reduce_mul prices)
             (fun product =>
                rbind (float_pow product
                         (1 / inject_Z (Z.of_nat (List.length prices))))
                  (fun v => Ok (Some v)))) /\
    symbol_group "TEA" case_trades = [mkTrade TEA 10 buy 40 0] /\
    symbol_group "tea" case_trades = [mkTrade tea_lower 10 buy 90 0].
Proof.
  split; [reflexivity|].
  destruct (@all_share_index_groups_by_stored_symbol case_world None
              (mkTrade TEA 10 buy 40 0) (mkTrade tea_lower 10 buy 90 0))
    as [ks [_ [K1 [K2 [_ [E _]]]]]].
  - left. reflexivity.
  - right. left. reflexivity.
  - discriminate.
  - exists ks. split; [exact K1|]. split; [exact K2|].
    split; [exact E|]. split; reflexivity.
Defined.

(* ------------------------------------------------------------------ *)
(** ** Division by zero in the queries *)

Lemma price_by_stock_result (w : World) (sym : string) (d : Z) :
  fst (price_by_stock sym d w) =
    match window_from (readings (clock w)) (reads (clock w)) d
            (filter (fun t => String.eqb (symbol (stock t)) (upper sym))
               (trades (exchange w))) with
    | [] => Ok None
    | (_ :: _) as sel =>
        rbind (volume_weighted_price sel) (fun p => Ok (Some p))
    end.
Proof.
  destruct w as [ex [rd k]]. cbn [exchange clock readings reads].
  rewrite price_by_stock_run. cbn [fst].
  rewrite price_selection_window.
  destruct (window_from rd k d _); reflexivity.
Qed.

Lemma window_from_Forall (P : Trade -> Prop) (rd : nat -> Z) (d : Z)
    (l : list Trade) (k : nat) :
  Forall P l -> Forall P (window_from rd k d l).
Proof.
  intros H. revert k. induction H as [|t l Ht Hl IH]; intros k;
    [constructor|].
  rewrite window_from_cons.
  destruct (rd k - seconds d <=? timestamp t)%Z;
    [constructor; [exact Ht|]|]; apply IH.
Qed.

(** X19. [price_by_stock] fails with [ZeroDivisionError] exactly when it
    selects some trades and their quantities sum to zero. *)
Theorem price_by_stock_zero_division (w : World) (sym : string) (d : Z) :
  let sel :=
    window_from (readings (clock w)) (reads (clock w)) d
      (filter (fun t => String.eqb (symbol (stock t)) (upper sym))
         (trades (exchange w))) in
  fst (price_by_stock sym d w) = Raise ZeroDivisionError <->
  sel <> [] /\ total_quantity sel = 0%Z.
Proof.
  intros sel. rewrite price_by_stock_result. fold sel.
  destruct sel as [|t ts] eqn:Es.
  - split; [discriminate | intros [H _]; contradiction].
  - rewrite <- Es.
    destruct (Z.eq_dec (total_quantity sel) 0) as [E|E].
    + rewrite (vwp_raises sel E). cbn [rbind].
      split; [intros _; split; [rewrite Es; discriminate | exact E]|reflexivity].
    + destruct (@vwp_value sel E) as [v [Ev _]]. rewrite Ev. cbn [rbind].
      split; [discriminate | intros [_ H]; contradiction].
Qed.

(** X10. On a ledger where every quantity is positive, [price_by_stock]
    does not fail with [ZeroDivisionError], whatever the clock shows. *)
Theorem price_by_stock_safe (w : World) (sym : string) (d : Z) :
  Forall (fun t => (0 < quantity t)%Z) (trades (exchange w)) ->
  fst (price_by_stock sym d w) <> Raise ZeroDivisionError.
Proof.
  intros Hq. rewrite price_by_stock_result.
  set (sel := window_from _ _ _ _).
  assert (Hsel : Forall (fun t => (0 < quantity t)%Z) sel).
  { apply window_from_Forall. apply Forall_forall. intros t Ht.
    apply filter_In in Ht. rewrite Forall_forall in Hq. now apply Hq. }
  destruct sel as [|t ts] eqn:Es; [discriminate|]. rewrite <- Es in *.
  assert (Hne : sel <> []) by (rewrite Es; discriminate).
  pose proof (total_quantity_pos Hne Hsel) as Hpos.
  destruct (@vwp_value sel) as [v [Ev _]]; [lia|].
  rewrite Ev. discriminate.
Qed.

Lemma price_by_stock_safe_witness :
  fst (price_by_stock "gin" 300 acceptance_world) <> Raise ZeroDivisionError.
Proof.
  apply price_by_stock_safe. repeat constructor.
Defined.

(* ------------------------------------------------------------------ *)
(** ** Placing a trade and asking for its price *)

(** X11. A trade placed on a stock built by the constructor is found
    again: if no earlier trade is on that symbol and the clock has not run
    further than the window between the two calls, then [price_by_stock],
    asked for the symbol in any letter case, selects that trade alone and
    returns what [volume_weighted_price] gives on it. *)
Theorem place_then_price (w : World) (cls : StockClass) (sym sym' : string)
    (ld par : Z) (f : option Q) (qty : Z) (a : TradeType) (p : Q) (d : Z) :
  upper sym' = upper sym ->
  Forall (fun t => symbol (stock t) <> upper sym) (trades (exchange w)) ->
  (readings (clock w) (S (reads (clock w))) - seconds d
     <= readings (clock w) (reads (clock w)))%Z ->
  fst (price_by_stock sym' d
         (snd (place_trade (Stock_init cls sym ld par f) qty a p w)))
    = rbind (volume_weighted_price
               [mkTrade (Stock_init cls sym ld par f) qty a p
                  (readings (clock w) (reads (clock w)))])
        (fun v => Ok (Some v)).
Proof.
  destruct w as [ex [rd k]]. cbn [exchange clock readings reads].
  intros Hsym Hnone Hwin.
  rewrite place_trade_run. cbn [snd].
  rewrite price_by_stock_run. cbn [fst trades].
  rewrite <- price_selection_own, Hsym, filter_app.
  rewrite filter_none.
  2:{ eapply Forall_impl; [|exact Hnone]. intros t Ht.
      now apply String.eqb_neq. }
  cbn [app filter stock symbol Stock_init]. rewrite String.eqb_refl.
  cbn [price_selection stock symbol timestamp]. rewrite String.eqb_refl.
  apply Z.leb_le in Hwin. rewrite Hwin. reflexivity.
Qed.

Lemma place_then_price_witness :
  fst (price_by_stock "Tea" 0
         (snd (place_trade (Stock_init CommonStock "tea" 0 100 None)
                 42 buy 32 acceptance_start)))
    = rbind (volume_weighted_price
               [mkTrade (Stock_init CommonStock "tea" 0 100 None) 42 buy 32
                  acceptance_now])
        (fun v => Ok (Some v)).
Proof.
  apply (@place_then_price acceptance_start CommonStock "tea" "Tea").
  - reflexivity.
  - constructor.
  - discriminate.
Defined.

(* ------------------------------------------------------------------ *)
(** ** The index of a ledger of positive quantities *)

Lemma float_pow_positive_exponent (x e : Q) :
  (0 < e)%Q -> exists v, float_pow x e = Ok v.
Proof.
  intros He. unfold float_pow. destruct (x ?= 0)%Q.
  - apply Qgt_alt in He. rewrite He. now eexists.
  - destruct (Z.pos (Qden (Qred e)) =? 1)%Z; now eexists.
  - now eexists.
Qed.

Lemma float_pow_positive_base (x e : Q) :
  (0 < x)%Q -> exists g, float_pow x e = Ok (PyFloat g).
Proof.
  intros Hx. unfold float_pow. apply Qgt_alt in Hx. rewrite Hx. now eexists.
Qed.

Lemma total_value_pos (ts : list Trade) :
  ts <> [] ->
  Forall (fun t => (0 < quantity t)%Z) ts ->
  Forall (fun t => (0 < price t)%Q) ts ->
  (0 < total_value ts)%Q.
Proof.
  intros Hne Hq Hp. destruct ts as [|t ts]; [contradiction|]. clear Hne.
  unfold total_value.
  revert t Hq Hp. induction ts as [|t' ts IH]; intros t Hq Hp;
    inversion Hq as [|? ? Hqt Hqs]; inversion Hp as [|? ? Hpt Hps]; subst.
  - simpl. rewrite Qplus_0_r. apply Qmult_lt_0_compat; [exact Hpt|].
    change 0%Q with (inject_Z 0). now rewrite <- Zlt_Qlt.
  - specialize (IH t' Hqs Hps). cbn [map Qsum] in *.
    setoid_replace 0%Q with (0 + 0)%Q by ring.
    apply Qplus_lt_le_compat; [|now apply Qlt_le_weak].
    apply Qmult_lt_0_compat; [exact Hpt|].
    change 0%Q with (inject_Z 0). now rewrite <- Zlt_Qlt.
Qed.

Lemma Qprod_pos (xs : list Q) :
  Forall (fun x => (0 < x)%Q) xs -> (0 < Qprod xs)%Q.
Proof.
  induction 1 as [|x xs Hx Hxs IH]; simpl; [reflexivity|].
  now apply Qmult_lt_0_compat.
Qed.

Lemma index_of_safe (sel : list Trade) :
  Forall (fun t => (0 < quantity t)%Z) sel ->
  (exists r, index_of sel = Ok r) /\
  (Forall (fun t => (0 < price t)%Q) sel ->
   forall v, index_of sel = Ok (Some v) -> exists g, v = PyFloat g).
Proof.
  intros Hq. destruct sel as [|t0 sel0] eqn:Es.
  { split; [now eexists | discriminate]. }
  rewrite <- Es in *.
  assert (Hne : sel <> []) by (rewrite Es; discriminate).
  rewrite (index_of_formula Hne).
  destruct (groupby_sorted stock_symbol sel) as [_ [_ Hin]].
  set (ks := group_keys stock_symbol (sorted stock_symbol sel)) in *.
  assert (Hks : ks <> []).
  { unfold ks, group_keys. intros E. apply map_eq_nil in E.
    apply groupby_nil_iff, sorted_nil_iff in E. contradiction. }
  assert (Hgroup : forall k, In k ks ->
            symbol_group k sel <> [] /\
            Forall (fun t => (0 < quantity t)%Z) (symbol_group k sel) /\
            (Forall (fun t => (0 < price t)%Q) sel ->
             Forall (fun t => (0 < price t)%Q) (symbol_group k sel))).
  { intros k Hk. apply Hin in Hk. destruct Hk as [t [Ht Hk]].
    split; [|split].
    - intros E.
      assert (Hmem : In t (symbol_group k sel)).
      { unfold symbol_group, with_key. apply filter_In.
        split; [exact Ht | now apply String.eqb_eq]. }
      rewrite E in Hmem. destruct Hmem.
    - apply Forall_forall. intros t' Ht'.
      unfold symbol_group, with_key in Ht'. apply filter_In in Ht'.
      rewrite Forall_forall in Hq. now apply Hq.
    - intros Hp. apply Forall_forall. intros t' Ht'.
      unfold symbol_group, with_key in Ht'. apply filter_In in Ht'.
      rewrite Forall_forall in Hp. now apply Hp. }
  split.
  - destruct (@mapR_Forall_ok _ _ (fun _ => True)
                (fun k => volume_weighted_price (symbol_group k sel)) ks)
      as [prices [Ep [_ Hlen]]].
    { intros k Hk. destruct (Hgroup k Hk) as [G1 [G2 _]].
      pose proof (total_quantity_pos G1 G2) as Hpos.
      destruct (@vwp_value (symbol_group k sel)) as [v [Ev _]]; [lia|].
      now exists v. }
    rewrite Ep. cbn [rbind].
    destruct prices as [|x xs].
    { destruct ks; [contradiction | discriminate]. }
    cbn [reduce_mul rbind].
    destruct (@float_pow_positive_exponent (fold_left Qmult xs x)
                (1 / inject_Z (Z.of_nat (List.length (x :: xs)))))
      as [v Ev]; [reflexivity|].
    rewrite Ev. now eexists.
  - intros Hp v.
    destruct (@mapR_Forall_ok _ _ (fun y => (0 < y)%Q)
                (fun k => volume_weighted_price (symbol_group k sel)) ks)
      as [prices [Ep [Hpos Hlen]]].
    { intros k Hk. destruct (Hgroup k Hk) as [G1 [G2 G3]].
      pose proof (total_quantity_pos G1 G2) as Hqpos.
      destruct (@vwp_value (symbol_group k sel)) as [y [Ey Hy]]; [lia|].
      exists y. split; [exact Ey|]. rewrite Hy.
      apply Qlt_shift_div_l.
      - change 0%Q with (inject_Z 0). now rewrite <- Zlt_Qlt.
      - rewrite Qmult_0_l. apply total_value_pos; auto. }
    rewrite Ep. cbn [rbind].
    destruct prices as [|x xs].
    { destruct ks; [contradiction | discriminate]. }
    cbn [reduce_mul rbind].
    destruct (@float_pow_positive_base (fold_left Qmult xs x)
                (1 / inject_Z (Z.of_nat (List.length (x :: xs)))))
      as [g Eg].
    { rewrite fold_left_Qmult. inversion Hpos; subst.
      apply Qmult_lt_0_compat; [assumption | now apply Qprod_pos]. }
    rewrite Eg. cbn [rbind]. intros [= <-]. now exists g.
Qed.

(** X16. On a ledger where every quantity is positive, [all_share_index]
    does not fail with [ZeroDivisionError], whatever the duration, the
    prices and the clock; and if every price is positive too, a number it
    returns is a float, not a complex number. *)
Theorem all_share_index_safe (w : World) (duration : option Z) :
  Forall (fun t => (0 < quantity t)%Z) (trades (exchange w)) ->
  fst (all_share_index duration w) <> Raise ZeroDivisionError /\
  (Forall (fun t => (0 < price t)%Q) (trades (exchange w)) ->
   forall v, fst (all_share_index duration w) = Ok (Some v) ->
             exists g, v = PyFloat g).
Proof.
  destruct w as [ex [rd k]]. cbn [exchange]. intros Hq.
  rewrite all_share_index_run. cbn [fst].
  destruct (@index_of_safe (fst (index_selected rd k duration (trades ex))))
    as [[r Er] Hfloat].
  { now apply index_selected_Forall. }
  split; [rewrite Er; discriminate|].
  intros Hp. apply Hfloat. now apply index_selected_Forall.
Qed.

Lemma all_share_index_safe_witness :
  fst (all_share_index (Some 300%Z) acceptance_world)
    <> Raise ZeroDivisionError /\
  (Forall (fun t => (0 < price t)%Q) (trades (exchange acceptance_world)) ->
   forall v, fst (all_share_index (Some 300%Z) acceptance_world) = Ok (Some v) ->
             exists g, v = PyFloat g).
Proof.
  apply all_share_index_safe. repeat constructor.
Defined.
